(** * Jeopardy question curation: number, non-English word and unusual
      proper noun detectors (workbook.ipynb)

    Shallow embedding of the notebook's helper functions and of the
    column-wise pipeline that applies them, followed by the properties
    established about them.

    Text.  A Python [str] is a Rocq [string]; a character is read as the
    code point of the same number, so the alphabet is U+0000..U+00FF.  The
    character predicates below are CPython's for that range.

    String literals are byte strings: a character above U+007F is written
    by its code.

    External resources.  NLTK's tokenizer, tagger, lemmatizer, WordNet and
    word lists are the fields of the class [NLTK], over which the detectors
    are defined. *)

From Stdlib Require Import Ascii String NArith.
From stdpp Require Import base option list sorting gmap strings.

Local Open Scope N_scope.

(** ** Characters *)

Module Char.

Definition cp (c : ascii) : N := N_of_ascii c.

Definition between (lo hi : N) (c : ascii) : bool :=
  (lo <=? cp c) && (cp c <=? hi).

Definition code_is (n : N) (c : ascii) : bool := cp c =? n.

(** Py_UNICODE_ISUPPER: A-Z and U+00C0..U+00DE without the multiplication
    sign. *)
Definition isupper (c : ascii) : bool :=
  between 65 90 c || (between 192 222 c && negb (code_is 215 c)).

(** Py_UNICODE_ISLOWER: a-z, the ordinal indicators, the micro sign and
    U+00DF..U+00FF without the division sign. *)
Definition islower (c : ascii) : bool :=
  between 97 122 c || code_is 170 c || code_is 181 c || code_is 186 c
  || (between 223 255 c && negb (code_is 247 c)).

(** Py_UNICODE_ISALPHA: the letters of the range are exactly its cased
    characters. *)
Definition isalpha (c : ascii) : bool := isupper c || islower c.

(** Py_UNICODE_ISSPACE. *)
Definition isspace (c : ascii) : bool :=
  between 9 13 c || between 28 32 c || code_is 133 c || code_is 160 c.

(** Py_UNICODE_ISDECIMAL, the class [\d] of [re] on [str] patterns. *)
Definition isdecimal (c : ascii) : bool := between 48 57 c.

(** Py_UNICODE_ISALNUM: letters, decimals, the superscript digits and the
    vulgar fractions. *)
Definition isalnum (c : ascii) : bool :=
  isalpha c || isdecimal c || code_is 178 c || code_is 179 c || code_is 185 c
  || between 188 190 c.

(** The class [\w] of [re]: alphanumeric or underscore. *)
Definition isword (c : ascii) : bool := isalnum c || code_is 95 c.

(** Py_UNICODE_TOLOWER: every upper-case character of the range has its
    lower-case 32 code points above. *)
Definition lower (c : ascii) : ascii :=
  if isupper c then ascii_of_N (cp c + 32) else c.

(** Upper-casing of one character, as [str.upper] does it.  The sharp s
    becomes two letters; the micro sign and the y with diaeresis have
    their upper-case outside the alphabet, hence [None]. *)
Definition upper (c : ascii) : option string :=
  if code_is 223 c then Some "SS"
  else if code_is 181 c || code_is 255 c then None
  else if between 97 122 c || (between 224 254 c && negb (code_is 247 c))
       then Some (String (ascii_of_N (cp c - 32)) "")
       else Some (String c "").

End Char.

(** ** Strings: the [str] methods the notebook calls *)

Module Str.

Fixpoint all (p : ascii → bool) (s : string) : bool :=
  match s with
  | "" => true
  | String c s' => p c && all p s'
  end.

Fixpoint any (p : ascii → bool) (s : string) : bool :=
  match s with
  | "" => false
  | String c s' => p c || any p s'
  end.

Fixpoint map (f : ascii → ascii) (s : string) : string :=
  match s with
  | "" => ""
  | String c s' => String (f c) (map f s')
  end.

Fixpoint filter (p : ascii → bool) (s : string) : string :=
  match s with
  | "" => ""
  | String c s' => if p c then String c (filter p s') else filter p s'
  end.

Fixpoint repeat (c : ascii) (n : nat) : string :=
  match n with
  | O => ""
  | S n' => String c (repeat c n')
  end.

(** [s.lower()] *)
Definition lower (s : string) : string := map Char.lower s.

(** [s.upper()], or [None] when the result leaves the alphabet. *)
Fixpoint upper (s : string) : option string :=
  match s with
  | "" => Some ""
  | String c s' =>
      match Char.upper c, upper s' with
      | Some u, Some us => Some (u +:+ us)
      | _, _ => None
      end
  end.

(** [s.isupper()]: no lower-case character and at least one upper-case
    one. *)
Definition isupper (s : string) : bool :=
  negb (any Char.islower s) && any Char.isupper s.

(** [s.isalpha()]: non-empty and letters only. *)
Definition isalpha (s : string) : bool :=
  match s with
  | "" => false
  | _ => all Char.isalpha s
  end.

(** [s.startswith(p)] *)
Definition startswith (s p : string) : bool := String.prefix p s.

(** [s.endswith(p)] *)
Definition endswith (s p : string) : bool :=
  String.prefix (String.rev p) (String.rev s).

(** [s.endswith((p1, ..., pn))] *)
Definition endswith_any (s : string) (ps : list string) : bool :=
  existsb (endswith s) ps.

(** [s.split()]: the maximal runs of non-space characters. [cur] holds the
    characters of the run being read, last one first. *)
Fixpoint split_go (cur : string) (s : string) : list string :=
  match s with
  | "" => match cur with "" => [] | _ => [String.rev cur] end
  | String c s' =>
      if Char.isspace c
      then match cur with
           | "" => split_go "" s'
           | _ => String.rev cur :: split_go "" s'
           end
      else split_go (String c cur) s'
  end.

Definition split (s : string) : list string := split_go "" s.

(** [sep.join(parts)] *)
Fixpoint join (sep : string) (parts : list string) : string :=
  match parts with
  | [] => ""
  | [p] => p
  | p :: ps => p +:+ sep +:+ join sep ps
  end.

End Str.

Local Close Scope N_scope.

(** ** Regular expressions: the fragment of [re] the notebook uses

    Every repetition in the notebook's patterns repeats a single character
    or class, so a repetition carries an atom.  Capturing parentheses do not
    change what is matched and are not represented. *)

Module Re.

Inductive atom : Type :=
| Lit (c : ascii)              (* a literal character *)
| Cls (p : ascii → bool).      (* a class: [.], [\d], a bracket set *)

Inductive regex : Type :=
| One (a : atom)
| Rep (greedy : bool) (lo : nat) (hi : option nat) (a : atom)
| Cat (r1 r2 : regex)
| Alt (r1 r2 : regex)
| Bol                          (* [^] *)
| Eol.                         (* [$] *)

(** A compiled pattern: the expression and the IGNORECASE flag. *)
Record pattern : Type := Pattern { expr : regex; ignorecase : bool }.

(** One character against an atom.  Under IGNORECASE a literal is compared
    through lower-casing, which is what [re] does inside the alphabet;
    outside it, [re] also takes U+0130 and U+0131 for the letter I. *)
Definition atom_ok (ic : bool) (a : atom) (x : ascii) : bool :=
  match a with
  | Lit c => if ic then bool_decide (Char.lower x = Char.lower c)
             else bool_decide (x = c)
  | Cls p => p x
  end.

(** Whether a repetition bounded by [hi] may take one more character. *)
Definition more (hi : option nat) : bool :=
  match hi with Some O => false | _ => true end.

Definition less (hi : option nat) : option nat := pred <$> hi.

Section Exec.
Context {R : Type}.

(** Continuations receive the position reached and the rest of the
    input. *)
Abbreviation cont := (nat → string → option R).

Definition orelse (a b : option R) : option R :=
  match a with Some _ => a | None => b end.

Definition stop (lo : nat) (pos : nat) (s : string) (k : cont) : option R :=
  match lo with O => k pos s | S _ => None end.

(** Greedy repetition: the longest run first, then shorter ones. *)
Fixpoint greedy (ok : ascii → bool) (lo : nat) (hi : option nat)
    (pos : nat) (s : string) (k : cont) : option R :=
  match s with
  | String c s' =>
      if ok c && more hi
      then orelse (greedy ok (pred lo) (less hi) (S pos) s' k)
                  (stop lo pos s k)
      else stop lo pos s k
  | "" => stop lo pos s k
  end.

(** Lazy repetition: the shortest run first, then longer ones. *)
Fixpoint lazy (ok : ascii → bool) (lo : nat) (hi : option nat)
    (pos : nat) (s : string) (k : cont) : option R :=
  orelse (stop lo pos s k)
    match s with
    | String c s' =>
        if ok c && more hi
        then lazy ok (pred lo) (less hi) (S pos) s' k
        else None
    | "" => None
    end.

(** Backtracking matcher: alternatives are tried left to right and the
    first success is returned. [$] holds at the end of the input and
    before a newline that ends it; [^] holds at position 0. *)
Fixpoint exec (ic : bool) (r : regex) (pos : nat) (s : string) (k : cont)
    : option R :=
  match r with
  | One a =>
      match s with
      | String c s' => if atom_ok ic a c then k (S pos) s' else None
      | "" => None
      end
  | Rep true lo hi a => greedy (atom_ok ic a) lo hi pos s k
  | Rep false lo hi a => lazy (atom_ok ic a) lo hi pos s k
  | Cat r1 r2 => exec ic r1 pos s (λ p t, exec ic r2 p t k)
  | Alt r1 r2 => orelse (exec ic r1 pos s k) (exec ic r2 pos s k)
  | Bol => match pos with O => k pos s | S _ => None end
  | Eol =>
      match s with
      | "" => k pos s
      | String c "" => if bool_decide (c = "010"%char) then k pos s else None
      | _ => None
      end
  end.
End Exec.

(** The match of [p] that starts at position [pos], where [s] is the input
    from there on: the position where it ends, if there is one. *)
Definition match_at (p : pattern) (pos : nat) (s : string) : option nat :=
  exec (ignorecase p) (expr p) pos s (λ e _, Some e).

(** [p.match(s)], as far as its truth value and extent go. *)
Definition match_ (p : pattern) (s : string) : option nat := match_at p 0 s.

(** [p.fullmatch(s)]: a match that ends where the input ends. *)
Definition fullmatch (p : pattern) (s : string) : option nat :=
  exec (ignorecase p) (expr p) 0 s (λ e rest, match rest with "" => Some e | _ => None end).

(** [p.search(s)]: the first position with a match. *)
Fixpoint search_from (p : pattern) (pos : nat) (s : string) : option nat :=
  match match_at p pos s with
  | Some e => Some e
  | None =>
      match s with
      | "" => None
      | String _ s' => search_from p (S pos) s'
      end
  end.

Definition search (p : pattern) (s : string) : option nat := search_from p 0 s.

(** [p.sub('', s)]: the non-overlapping matches are removed left to right.
    [skip] counts the characters still inside the match being removed.
    The patterns this is used with have no empty match. *)
Fixpoint sub_go (p : pattern) (skip pos : nat) (s : string) : string :=
  match s with
  | "" => ""
  | String c s' =>
      match skip with
      | S n => sub_go p n (S pos) s'
      | O =>
          match match_at p pos s with
          | Some e =>
              match e - pos with
              | S n => sub_go p n (S pos) s'
              | O => String c (sub_go p 0 (S pos) s')
              end
          | None => String c (sub_go p 0 (S pos) s')
          end
      end
  end.

Definition sub_empty (p : pattern) (s : string) : string := sub_go p 0 0 s.

(** Pattern syntax helpers. *)
Definition chr (c : ascii) : regex := One (Lit c).
Definition opt (c : ascii) : regex := Rep true 0 (Some 1) (Lit c).
Definition upto (n : nat) (c : ascii) : regex := Rep true 0 (Some n) (Lit c).

End Re.

Import Re.

Declare Scope re_scope.
Delimit Scope re_scope with re.
Bind Scope re_scope with regex.
Infix "·" := Cat (at level 40, left associativity) : re_scope.
Infix "∣" := Alt (at level 50, left associativity) : re_scope.

(** ** Constants and patterns *)

(** [ROMAN_NUMERAL_PATTERN]:
    [^(M{0,3})(CM|CD|D?C{0,3})(XC|XL|L?X{0,3})(IX|IV|V?I{0,3})$], IGNORECASE. *)
Definition ROMAN_NUMERAL_PATTERN : pattern :=
  Pattern
    (Bol
     · upto 3 "M"
     · (chr "C" · chr "M" ∣ chr "C" · chr "D" ∣ opt "D" · upto 3 "C")
     · (chr "X" · chr "C" ∣ chr "X" · chr "L" ∣ opt "L" · upto 3 "X")
     · (chr "I" · chr "X" ∣ chr "I" · chr "V" ∣ opt "V" · upto 3 "I")
     · Eol)%re
    true.

(** ** Number functions *)

(** [is_valid_roman]: [bool(ROMAN_NUMERAL_PATTERN.match(string))]. *)
Definition is_valid_roman (s : string) : bool :=
  bool_decide (is_Some (match_ ROMAN_NUMERAL_PATTERN s)).

(** [SPELLED_NUMBERS], with its successive extensions. *)
Definition SPELLED_NUMBERS : list string :=
  ["one"; "two"; "three"; "four"; "five"; "six"; "seven"; "eight"; "nine"; "ten";
   "eleven"; "twelve"; "thirteen"; "fourteen"; "fifteen"; "sixteen"; "seventeen";
   "eighteen"; "nineteen"; "twenty";
   "thirty"; "forty"; "fifty"; "sixty"; "seventy"; "eighty"; "ninety";
   "hundred"; "thousand"; "million"; "billion"]
  ++ ["first"; "second"; "third"; "fourth"; "fifth"; "sixth"; "seventh"; "eighth";
      "ninth"; "tenth"]
  ++ ["eleventh"; "twelfth"; "thirteenth"; "fourteenth"; "fifteenth"; "sixteenth";
      "seventeenth"; "eighteenth"; "nineteenth"]
  ++ ["twentieth"; "thirtieth"; "fortieth"; "fiftieth"; "sixtieth"; "seventieth";
      "eightieth"; "ninetieth"]
  ++ ["hundredth"; "thousandth"; "millionth"; "billionth"]
  ++ ["twice"; "thrice"; "once"]
  ++ ["single"; "double"; "triple"; "quadruple"; "quintuple"; "sextuple"; "septuple";
      "octuple"; "nonuple"; "decuple"]
  ++ ["dozen"; "fortnight"; "score"; "century"; "millennium"].

(** [SPELLED_NUMBERS_SET = set(SPELLED_NUMBERS)] *)
Definition SPELLED_NUMBERS_SET : gset string := list_to_set SPELLED_NUMBERS.

(** [LOW_FREQUENCY_THRESHOLD] *)
Definition LOW_FREQUENCY_THRESHOLD : nat := 2.

(** [bool(a & b)] on two sets: the intersection is not empty. *)
Definition sets_meet (a b : gset string) : bool := bool_decide (a ∩ b ≠ ∅).

(** ** Values and exceptions

    A field read from the JSON file is text, or something else: a missing
    or null field (which pandas holds as NaN) or a number. *)

Inductive value : Type :=
| VStr (s : string)
| VMissing
| VNum (n : Z).

Inductive exn : Type := TypeError | AttributeError | ValueError.

Inductive result (A : Type) : Type :=
| Ok (a : A)
| Raise (e : exn).
Arguments Ok {A} a.
Arguments Raise {A} e.

(** Exceptions propagate: the error monad. *)
Definition bind {A B : Type} (r : result A) (k : A → result B) : result B :=
  match r with
  | Ok a => k a
  | Raise e => Raise e
  end.

Notation "'let!' x ':=' r 'in' k" := (bind r (λ x, k))
  (at level 10, x name, r at level 100, k at level 200).

(** [Series.apply(f)]: [f] on every entry, first to last; the first
    exception ends the call. *)
Fixpoint apply {A B : Type} (f : A → result B) (col : list A) : result (list B) :=
  match col with
  | [] => Ok []
  | a :: col' =>
      let! b := f a in
      let! bs := apply f col' in
      Ok (b :: bs)
  end.

(** ** Utility functions *)

Definition a_z (c : ascii) : bool := Char.between 97 122 c.
Definition d0_9 (c : ascii) : bool := Char.between 48 57 c.
Definition a_f (c : ascii) : bool := Char.between 97 102 c.

(** [.] without DOTALL: anything but a newline. *)
Definition dot (c : ascii) : bool := negb (Char.code_is 10 c).

(** The pattern of [strip_html_tags]:
    [<.*?>|&([a-z0-9]+|#[0-9]{1,6}|#x[0-9a-f]{1,6});] *)
Definition clean : pattern :=
  Pattern
    (chr "<" · Rep false 0 None (Cls dot) · chr ">"
     ∣ chr "&"
       · (Rep true 1 None (Cls (λ c, a_z c || d0_9 c))
          ∣ chr "#" · Rep true 1 (Some 6) (Cls d0_9)
          ∣ chr "#" · chr "x" · Rep true 1 (Some 6) (Cls (λ c, d0_9 c || a_f c)))
       · chr ";")%re
    false.

(** [strip_html_tags] on a string. *)
Definition strip_html_tags_str (text : string) : string := sub_empty clean text.

(** [strip_html_tags]: [re.sub] accepts a string only. *)
Definition strip_html_tags (text : value) : result value :=
  match text with
  | VStr s => Ok (VStr (strip_html_tags_str s))
  | _ => Raise TypeError
  end.

Definition dquote : string := String (ascii_of_nat 34) "".
Definition squote : string := "'".

(** [text[1:-1]] *)
Definition slice_1_m1 (text : string) : string :=
  String.substring 1 (String.length text - 2) text.

(** [strip_quotes]: a value that is not a string has no [startswith]. *)
Definition strip_quotes (text : value) : result value :=
  match text with
  | VStr s =>
      if Str.startswith s dquote && Str.endswith s dquote then Ok (VStr (slice_1_m1 s))
      else if Str.startswith s squote && Str.endswith s squote then Ok (VStr (slice_1_m1 s))
      else Ok (VStr s)
  | _ => Raise AttributeError
  end.

(** ** The detectors, over NLTK's resources *)

(** NLTK as the notebook uses it. *)
Class NLTK : Type := {
  (** [nltk.word_tokenize] *)
  word_tokenize : string → list string;
  (** the tagger behind [nltk.pos_tag]: the tag it gives to the token at a
      position of a token list *)
  tag_of : list string → nat → string;
  (** [lemmatizer.lemmatize] *)
  lemmatize : string → string;
  (** [wordnet.synsets] *)
  synset : Type;
  wordnet_synsets : string → list synset;
  (** [words.words()] and [stopwords.words("english")] *)
  words_words : list string;
  stopwords_english : list string
}.

Section Curation.

Context `{NLTK}.

(** [nltk.pos_tag(tokens)]: every token paired with its tag. *)
Definition pos_tag (tokens : list string) : list (string * string) :=
  imap (λ i word, (word, tag_of tokens i)) tokens.

(** [STOPWORDS = set(stopwords.words("english"))] *)
Definition STOPWORDS : gset string := list_to_set stopwords_english.

(** [ENGLISH_VOCAB = set(w.lower() for w in words.words())] *)
Definition ENGLISH_VOCAB : gset string := list_to_set (Str.lower <$> words_words).

(** *** Number functions *)

(** [is_noun]: the tag of the word, tagged alone, starts with NN. *)
Definition is_noun (word : string) : bool :=
  match pos_tag [word] !! 0%nat with
  | Some (_, pos) => Str.startswith pos "NN"
  | None => false
  end.

(** [is_noun_roman_bigram] *)
Definition is_noun_roman_bigram (bigram : string * string) : bool :=
  is_noun bigram.1 && is_valid_roman bigram.2.

(** [re.sub(r'[^\w\s]', '', first_word)] *)
Definition strip_symbols (first_word : string) : string :=
  sub_empty (Pattern (One (Cls (λ c, negb (Char.isword c || Char.isspace c)))) false)
            first_word.

(** One round of the loop of [find_valid_roman_numerals], at index [idx]:
    the token the round appends to [valid_roman_numerals], if it appends
    one.  [idx] ranges over the positions of [input_tokens], and [idx - 1]
    is read for [idx] above 0 only, so both lookups succeed. *)
Definition roman_round (input_tokens : list string) (idx : nat) : option string :=
  match input_tokens !! idx with
  | None => None
  | Some token =>
      if negb (Str.isupper token) then None
      else if bool_decide (String.length token ≤ 2) then
        if bool_decide (idx = 0%nat) then None
        else
          match input_tokens !! (idx - 1)%nat with
          | None => None
          | Some first_word =>
              let second_word := token in
              if Str.endswith_any first_word [","; "."; ";"; ":"] then None
              else
                let first_word := strip_symbols first_word in
                if is_noun_roman_bigram (first_word, second_word)
                then Some token
                else None
          end
      else if is_valid_roman token then Some token
      else None
  end.

(** [find_valid_roman_numerals]: the rounds for [idx] in
    [range(len(input_tokens))], each appending at the end. *)
Definition find_valid_roman_numerals (input_text : string) : list string :=
  let input_tokens := Str.split input_text in
  foldl (λ valid_roman_numerals idx,
           valid_roman_numerals ++ option_list (roman_round input_tokens idx))
        [] (seq 0 (length input_tokens)).

(** *** Non-English word functions *)

Definition excluded_pos_tags : list string :=
  ["NNP"; "NNPS"; "IN"; "DT"; "WP"; "WP$"; "WRB"; "PRP"; "PRP$"; "CC"; "TO";
   "MD"; "EX"; "UH"].

(** [x in ENGLISH_VOCAB] for an upper-cased word: a word whose upper-case
    leaves the alphabet is in no set of words of the alphabet. *)
Definition upper_in_vocab (w : string) : bool :=
  match Str.upper w with
  | Some u => bool_decide (u ∈ ENGLISH_VOCAB)
  | None => false
  end.

(** [lemma_word in ENGLISH_VOCAB or lemma_word.lower() in ENGLISH_VOCAB or
     lemma_word.upper() in ENGLISH_VOCAB or word.lower() in ENGLISH_VOCAB] *)
Definition in_en_dict (word lemma_word : string) : bool :=
  bool_decide (lemma_word ∈ ENGLISH_VOCAB)
  || bool_decide (Str.lower lemma_word ∈ ENGLISH_VOCAB)
  || upper_in_vocab lemma_word
  || bool_decide (Str.lower word ∈ ENGLISH_VOCAB).

(** [bool(wordnet.synsets(lemma_word))] *)
Definition in_wordnet (lemma_word : string) : bool :=
  match wordnet_synsets lemma_word with
  | [] => false
  | _ :: _ => true
  end.

(** The [if]/[elif] chain of the loop of [find_non_english_word]: whether
    the round for [word] appends it. *)
Definition non_english_round (method : string) (word : string) : bool :=
  let lemma_word := lemmatize (Str.lower word) in
  if bool_decide (method = "wordnet") && negb (in_wordnet lemma_word) then true
  else if bool_decide (method = "en_dict") && negb (in_en_dict word lemma_word) then true
  else if bool_decide (method = "combined") then
    negb (in_wordnet lemma_word || in_en_dict word lemma_word)
  else false.

(** The condition of the comprehension that builds [filtered_tokens]. *)
Definition retained (stopword_list : gset string) (wt : string * string) : bool :=
  Str.isalpha wt.1
  && bool_decide (Str.lower wt.1 ∉ stopword_list)
  && bool_decide (wt.2 ∉ excluded_pos_tags).

(** [find_non_english_word] *)
Definition find_non_english_word (input_text : string) (method : string)
    (stopword_list : gset string) : list string :=
  let input_tokens := word_tokenize input_text in
  let tagged_tokens := pos_tag input_tokens in
  let filtered_tokens := List.filter (retained stopword_list) tagged_tokens in
  foldl (λ non_english_words (wt : string * string),
           if non_english_round method wt.1
           then non_english_words ++ [wt.1]
           else non_english_words)
        [] filtered_tokens.

(** *** Proper noun functions *)

(** [find_proper_nouns] *)
Definition find_proper_nouns (text : string) : list string :=
  let tokens := word_tokenize text in
  let tagged := pos_tag tokens in
  fst <$> List.filter (λ wt : string * string, bool_decide (wt.2 ∈ ["NNP"; "NNPS"])) tagged.

(** [nltk.FreqDist(words)]: a counter filled one word at a time. *)
Definition FreqDist (words : list string) : gmap string nat :=
  foldl (λ (counts : gmap string nat) w, <[w := S (default 0%nat (counts !! w))]> counts)
        ∅ words.

(** The order of [sort_values(by='frequency', ascending=False)]. *)
Definition more_frequent (a b : string * nat) : Prop := (b.2 ≤ a.2)%nat.

Global Instance more_frequent_dec : RelDecision more_frequent.
Proof. intros a b. unfold more_frequent. apply _. Defined.

(** [generate_word_frequency], on the question column: the rows (word,
    frequency), highest frequency first. *)
Definition generate_word_frequency (questions : list string) : list (string * nat) :=
  let all_text := Str.join " " questions in
  let all_text := Str.lower all_text in
  let all_text := strip_html_tags_str all_text in
  let words := word_tokenize all_text in
  let freq_dist := FreqDist words in
  let freq_df := map_to_list freq_dist in
  merge_sort more_frequent freq_df.

(** [unusual_words]: the words of the rows whose frequency is at most the
    threshold. *)
Definition unusual_words_at (threshold : nat) (frequency_df : list (string * nat))
    : gset string :=
  list_to_set
    (fst <$> List.filter (λ row : string * nat, bool_decide (row.2 ≤ threshold)%nat)
                         frequency_df).

(** *** The columns computed by the notebook *)

(** [bool(set(nltk.word_tokenize(x.lower())) & SPELLED_NUMBERS_SET)] *)
Definition has_spelled_number_of (x : string) : bool :=
  sets_meet (list_to_set (word_tokenize (Str.lower x))) SPELLED_NUMBERS_SET.

(** [any(re.search(r'\d', token) for token in nltk.word_tokenize(x))] *)
Definition has_numerical_value_of (x : string) : bool :=
  existsb (λ token,
             bool_decide (is_Some (search (Pattern (One (Cls Char.isdecimal)) false) token)))
          (word_tokenize x).

(** [len(x) > 0] *)
Definition nonempty {A : Type} (x : list A) : bool :=
  bool_decide (0 < length x)%nat.

(** [bool(set(word.lower() for word in x) & unusual_words)] *)
Definition has_unusual_proper_noun_of (unusual_words : gset string) (x : list string)
    : bool :=
  sets_meet (list_to_set (Str.lower <$> x)) unusual_words.

(** [a | b] on two boolean columns of one frame. *)
Definition col_or (a b : list bool) : list bool := zip_with orb a b.

Record frame : Type := Frame {
  original_question : list value;
  question : list string;
  has_spelled_number : list bool;
  roman_text : list (list string);
  has_roman_numeral : list bool;
  has_numerical_value : list bool;
  has_number : list bool;
  non_english_words : list (list string);
  has_non_english_word : list bool;
  proper_nouns : list (list string);
  frequency_df : list (string * nat);
  unusual_words : gset string;
  has_unusual_proper_noun : list bool
}.

(** The text of a cleaned entry.  Both cleaning functions return strings,
    so the other case is not met. *)
Definition text_of (v : value) : string :=
  match v with VStr s => s | _ => "" end.

(** The pre-cleaning cell: both functions applied down the question
    column. *)
Definition preprocessing (raw : list value) : result (list string) :=
  let! stripped := apply strip_html_tags raw in
  let! unquoted := apply strip_quotes stripped in
  Ok (text_of <$> unquoted).

(** The cells after the pre-cleaning, in the order of the notebook, on the
    cleaned question column. *)
Definition cells (raw : list value) (question : list string) : frame :=
  let has_spelled_number := has_spelled_number_of <$> question in
  let roman_text := find_valid_roman_numerals <$> question in
  let has_roman_numeral := nonempty <$> roman_text in
  let has_numerical_value := has_numerical_value_of <$> question in
  let has_number := col_or (col_or has_spelled_number has_numerical_value) has_roman_numeral in
  let non_english_words :=
    (λ x, find_non_english_word x "combined" STOPWORDS) <$> question in
  let has_non_english_word := nonempty <$> non_english_words in
  let proper_nouns := find_proper_nouns <$> question in
  let frequency_df := generate_word_frequency question in
  let unusual_words := unusual_words_at LOW_FREQUENCY_THRESHOLD frequency_df in
  let has_unusual_proper_noun :=
    has_unusual_proper_noun_of unusual_words <$> proper_nouns in
  Frame raw question has_spelled_number roman_text has_roman_numeral
        has_numerical_value has_number non_english_words has_non_english_word
        proper_nouns frequency_df unusual_words has_unusual_proper_noun.

(** The notebook after loading: pre-cleaning, then the cells that compute
    columns.  The cells that display samples in between add no column; they
    print rows drawn at random and raise [ValueError] when fewer rows are
    flagged than are asked for.  They are not part of this function. *)
Definition curate (raw : list value) : result frame :=
  let! question := preprocessing raw in
  Ok (cells raw question).

End Curation.


(** * Vocabulary of the properties *)

(** ** The language of an expression *)

Definition within (hi : option nat) (n : nat) : Prop :=
  match hi with
  | None => True
  | Some h => n ≤ h
  end.

Definition newline : string := String "010" "".

(** [lang r pos w rest]: the expression [r] matches the word [w], read from
    position [pos] of an input that goes on with [rest]. *)
Fixpoint lang (ic : bool) (r : regex) (pos : nat) (w rest : string) : Prop :=
  match r with
  | One a => ∃ c, w = String c "" ∧ atom_ok ic a c = true
  | Rep _ lo hi a =>
      Str.all (atom_ok ic a) w = true ∧ lo ≤ String.length w
      ∧ within hi (String.length w)
  | Cat r1 r2 =>
      ∃ w1 w2, w = w1 +:+ w2 ∧ lang ic r1 pos w1 (w2 +:+ rest)
               ∧ lang ic r2 (pos + String.length w1) w2 rest
  | Alt r1 r2 => lang ic r1 pos w rest ∨ lang ic r2 pos w rest
  | Bol => w = "" ∧ pos = 0
  | Eol => w = "" ∧ (rest = "" ∨ rest = newline)
  end.

(** A run of characters accepted by a repetition, followed by a successful
    continuation. *)
Definition run_ok {R : Type} (ok : ascii → bool) (lo : nat) (hi : option nat)
    (pos : nat) (s : string) (k : nat → string → option R) (e : R) : Prop :=
  ∃ w rest, s = w +:+ rest ∧ Str.all ok w = true ∧ lo ≤ String.length w
            ∧ within hi (String.length w) ∧ k (pos + String.length w) rest = Some e.

(** ** The Roman numeral grammar *)

(** Two strings that differ in the case of their letters only. *)
Definition same_letters (a b : string) : Prop := Str.lower a = Str.lower b.

(** At most [n] copies of the letter [c], in either case. *)
Definition copies (n : nat) (c : ascii) (w : string) : Prop :=
  ∃ k, k ≤ n ∧ same_letters w (Str.repeat c k).

(** One decimal position of a numeral: the nine, the four, or an optional
    five followed by at most three ones. *)
Definition position (nine four : string) (five one : ascii) (w : string) : Prop :=
  same_letters w nine ∨ same_letters w four
  ∨ ∃ f o, w = f +:+ o ∧ copies 1 five f ∧ copies 3 one o.

(** The grammar in the words of the specification: thousands, hundreds,
    tens and units, in this order and with nothing around them. *)
Definition roman_grammar (s : string) : Prop :=
  ∃ m h t u,
    s = m +:+ h +:+ t +:+ u
    ∧ copies 3 "M" m
    ∧ position "CM" "CD" "D" "C" h
    ∧ position "XC" "XL" "L" "X" t
    ∧ position "IX" "IV" "V" "I" u.


(** ** Tokens and their context *)

(** The token ends in a comma, a period, a semicolon or a colon. *)
Definition ends_in_punctuation (token : string) : Prop :=
  ∃ front mark, token = front +:+ mark ∧ mark ∈ [","; "."; ";"; ":"].

(** The token without its symbols: the word characters (and blanks, of which
    a token of [split] has none) are kept. *)
Definition without_symbols (token : string) : string :=
  Str.filter (λ c, Char.isword c || Char.isspace c) token.

(** The word, tagged on its own, gets a tag that starts with NN. *)
Definition noun_in_isolation `{NLTK} (word : string) : Prop :=
  ∃ rest, tag_of [word] 0 = "NN" +:+ rest.

(** ** Counting *)

(** The number of occurrences of [w] in a list of tokens. *)
Definition occurrences (w : string) (tokens : list string) : nat :=
  length (filter (λ t, t = w) tokens).

(** ** Words known as English *)

(** The case variants of a lemma that are looked up in the word list: the
    lemma as it is, lower-cased, and upper-cased when the alphabet has its
    upper-case. *)
Definition case_variants (lemma_word : string) : list string :=
  [lemma_word; Str.lower lemma_word] ++ option_list (Str.upper lemma_word).

(** A tagged token flagged in the mode that consults both sources: it is
    retained (alphabetic, not a stopword, not of an excluded tag), its lemma
    has no sense, and neither a case variant of the lemma nor the lower-cased
    token is in the word list. *)
Definition flagged_either `{NLTK} (stopword_list : gset string)
    (wt : string * string) : Prop :=
  let lemma_word := lemmatize (Str.lower wt.1) in
  Str.isalpha wt.1 = true
  ∧ (Str.lower wt.1 ∉ stopword_list)
  ∧ (wt.2 ∉ ["NNP"; "NNPS"; "IN"; "DT"; "WP"; "WP$"; "WRB"; "PRP"; "PRP$"; "CC"; "TO";
             "MD"; "EX"; "UH"])
  ∧ wordnet_synsets lemma_word = []
  ∧ Forall (λ v, v ∉ ENGLISH_VOCAB) (case_variants lemma_word ++ [Str.lower wt.1]).

Global Instance flagged_either_dec `{NLTK} stopword_list wt :
  Decision (flagged_either stopword_list wt).
Proof. unfold flagged_either. apply _. Defined.

(** ** Records *)

(** A field that is not text. *)
Definition not_text (v : value) : Prop :=
  match v with VStr _ => False | _ => True end.

(** ** A small stand-in for NLTK, to run the definitions on examples *)

Definition toy_tags : list (string * string) :=
  [("Henry", "NNP"); ("England", "NNP"); ("German", "NNP"); ("ruled", "VBD");
   ("has", "VBZ"); ("The", "DT"); ("no", "DT"); ("direct", "JJ"); ("of", "IN")].

Definition toy_english : list string :=
  ["The"; "word"; "has"; "no"; "direct"; "translation"; "rule"; "of"; "egg"; "dozen"].

Definition toy_lemmas : list (string * string) :=
  [("ruled", "rule"); ("eggs", "egg"); ("dozens", "dozen")].

Fixpoint lookup_default (table : list (string * string)) (d key : string) : string :=
  match table with
  | [] => d
  | (k, v) :: table' => if bool_decide (k = key) then v else lookup_default table' d key
  end.

Global Instance toy_nltk : NLTK := {|
  word_tokenize := Str.split;
  tag_of tokens i := lookup_default toy_tags "NN" (default "" (tokens !! i));
  lemmatize w := lookup_default toy_lemmas w w;
  synset := string;
  wordnet_synsets w := if bool_decide (w ∈ toy_english) then [w] else [];
  words_words := toy_english;
  stopwords_english := ["the"; "has"; "no"; "of"; "a"]
|}.

(** The context in which a short upper-case token is taken as a numeral:
    the token before it does not end in punctuation and, without its
    symbols, is a noun when tagged alone; the token itself is valid. *)
Definition short_token_context `{NLTK} (previous token : string) : Prop :=
  ¬ ends_in_punctuation previous
  ∧ noun_in_isolation (without_symbols previous)
  ∧ is_valid_roman token = true.

(** Two records, as read from the file and as cleaned. *)
Definition toy_raw : list value :=
  [VStr "one dozen <b>eggs</b>"; VStr "'Henry VIII ruled England'"].

Definition toy_questions : list string :=
  ["one dozen eggs"; "Henry VIII ruled England"].

(** ** Further vocabulary *)

(** The seven capital letters of Roman numerals. *)
Definition roman_capital (c : ascii) : bool :=
  bool_decide (c ∈ ["M"; "D"; "C"; "L"; "X"; "V"; "I"]%char).

(** Their lower-case forms. *)
Definition roman_small (c : ascii) : bool :=
  bool_decide (c ∈ ["m"; "d"; "c"; "l"; "x"; "v"; "i"]%char).

(** A tagged token that passes the filter of [find_non_english_word]:
    alphabetic, not a stopword, not of an excluded tag. *)
Definition content_word (stopword_list : gset string) (wt : string * string) : Prop :=
  Str.isalpha wt.1 = true
  ∧ (Str.lower wt.1 ∉ stopword_list)
  ∧ (wt.2 ∉ ["NNP"; "NNPS"; "IN"; "DT"; "WP"; "WP$"; "WRB"; "PRP"; "PRP$"; "CC"; "TO";
             "MD"; "EX"; "UH"]).

(** A content word whose lemma has no sense in WordNet. *)
Definition flagged_wordnet `{NLTK} (stopword_list : gset string)
    (wt : string * string) : Prop :=
  content_word stopword_list wt
  ∧ wordnet_synsets (lemmatize (Str.lower wt.1)) = [].

(** A content word that the word list does not know, under the lemma or as
    written, whatever the case in the word list. *)
Definition flagged_en_dict `{NLTK} (stopword_list : gset string)
    (wt : string * string) : Prop :=
  content_word stopword_list wt
  ∧ Forall (λ w, Str.lower w ≠ Str.lower (lemmatize (Str.lower wt.1))
                 ∧ Str.lower w ≠ Str.lower wt.1)
           words_words.

Global Instance content_word_dec stopword_list wt :
  Decision (content_word stopword_list wt).
Proof. unfold content_word. apply _. Defined.

Global Instance flagged_wordnet_dec `{NLTK} stopword_list wt :
  Decision (flagged_wordnet stopword_list wt).
Proof. unfold flagged_wordnet. apply _. Defined.

Global Instance flagged_en_dict_dec `{NLTK} stopword_list wt :
  Decision (flagged_en_dict stopword_list wt).
Proof. unfold flagged_en_dict. apply _. Defined.

(** The characters of a string, first to last. *)
Definition chars (s : string) : list ascii := list_ascii_of_string s.

(** A [>] stands on the line that [s] starts, before any newline. *)
Fixpoint closes (s : string) : bool :=
  match s with
  | "" => false
  | String c s' =>
      if bool_decide (c = ">"%char) then true
      else if dot c then closes s'
      else false
  end.

(** Somewhere in [s] a [<] is followed, on its line, by a [>]. *)
Fixpoint has_tag (s : string) : bool :=
  match s with
  | "" => false
  | String c s' => (bool_decide (c = "<"%char) && closes s') || has_tag s'
  end.

(** The first [skip] characters of [s] hold no newline. *)
Fixpoint clear_for (skip : nat) (s : string) : bool :=
  match skip, s with
  | S n, String c s' => dot c && clear_for n s'
  | _, _ => true
  end.

(** Every atom of the expression accepts characters of [q] only. *)
Fixpoint atoms_within (ic : bool) (q : ascii → bool) (r : regex) : Prop :=
  match r with
  | One a | Rep _ _ _ a => ∀ c, atom_ok ic a c = true → q c = true
  | Cat r1 r2 | Alt r1 r2 => atoms_within ic q r1 ∧ atoms_within ic q r2
  | Bol | Eol => True
  end.

(** What [strip_quotes] does to a string. *)
Definition unquoted (s : string) : string :=
  if Str.startswith s dquote && Str.endswith s dquote then slice_1_m1 s
  else if Str.startswith s squote && Str.endswith s squote then slice_1_m1 s
  else s.
(** * Properties *)

(** ** Strings *)

Lemma app_cons c a b : String c a +:+ b = String c (a +:+ b).
Proof. reflexivity. Qed.

Lemma app_empty_l a : "" +:+ a = a.
Proof. reflexivity. Qed.

Lemma app_empty_r a : a +:+ "" = a.
Proof. induction a as [|c a IH]; [done|]. by rewrite app_cons, IH. Qed.

Lemma app_assoc_str a b c : (a +:+ b) +:+ c = a +:+ (b +:+ c).
Proof. induction a as [|x a IH]; [done|]. by rewrite !app_cons, IH. Qed.

Lemma length_app_str a b :
  String.length (a +:+ b) = String.length a + String.length b.
Proof. induction a as [|x a IH]; [done|]. rewrite app_cons. simpl. by rewrite IH. Qed.

Lemma app_eq_empty a b : a +:+ b = "" → a = "" ∧ b = "".
Proof. destruct a; [done|]. by rewrite app_cons. Qed.

Lemma all_app p a b : Str.all p (a +:+ b) = Str.all p a && Str.all p b.
Proof.
  induction a as [|x a IH]; [done|].
  rewrite app_cons. simpl. rewrite IH. by rewrite andb_assoc.
Qed.

(** ** The matcher against the language of an expression *)

Section Language.

Variable ic : bool.

Lemma lang_alt r1 r2 pos w rest :
  lang ic (r1 ∣ r2) pos w rest ↔ lang ic r1 pos w rest ∨ lang ic r2 pos w rest.
Proof. done. Qed.

Lemma lang_cat r1 r2 pos w rest :
  lang ic (r1 · r2) pos w rest
  ↔ ∃ w1 w2, w = w1 +:+ w2 ∧ lang ic r1 pos w1 (w2 +:+ rest)
             ∧ lang ic r2 (pos + String.length w1) w2 rest.
Proof. done. Qed.

Section Correct.

Context {R : Type}.
Implicit Types k : nat → string → option R.

Lemma orelse_Some (a b : option R) e :
  orelse a b = Some e → a = Some e ∨ b = Some e.
Proof. destruct a; simpl; auto. Qed.

Lemma orelse_is_Some (a b : option R) :
  is_Some a ∨ is_Some b → is_Some (orelse a b).
Proof. destruct a; simpl; [eauto|]. by intros [[? ?]|?]. Qed.

Lemma stop_Some lo pos s k e :
  stop lo pos s k = Some e → lo = 0 ∧ k pos s = Some e.
Proof. by destruct lo. Qed.

Lemma more_within hi n : within hi (S n) → more hi = true ∧ within (less hi) n.
Proof. destruct hi as [[|h]|]; simpl; [lia| |done]. intros. split; [done|lia]. Qed.

Lemma within_more hi n : more hi = true → within (less hi) n → within hi (S n).
Proof. destruct hi as [[|h]|]; simpl; [done| |done]. lia. Qed.

Lemma run_ok_stop ok lo hi pos s k e :
  stop lo pos s k = Some e → run_ok ok lo hi pos s k e.
Proof.
  intros [-> Hk]%stop_Some. exists "", s. simpl. rewrite Nat.add_0_r.
  repeat split; [lia|by destruct hi as [[|?]|]; simpl; lia|done].
Qed.

Lemma run_ok_step ok lo hi pos c s k e :
  ok c = true → more hi = true →
  run_ok ok (pred lo) (less hi) (S pos) s k e →
  run_ok ok lo hi pos (String c s) k e.
Proof.
  intros Hc Hm (w & rest & -> & Hw & Hlo & Hhi & Hk).
  exists (String c w), rest. simpl. rewrite Hc, Hw.
  replace (pos + S (String.length w)) with (S pos + String.length w) by lia.
  repeat split; [lia|by apply within_more|done].
Qed.

Lemma greedy_sound ok lo hi pos s k e :
  greedy ok lo hi pos s k = Some e → run_ok ok lo hi pos s k e.
Proof.
  revert lo hi pos. induction s as [|c s IH]; intros lo hi pos; simpl.
  - apply run_ok_stop.
  - destruct (ok c && more hi) eqn:Hc; [|apply run_ok_stop].
    apply andb_true_iff in Hc as [Hc Hm].
    intros [H|H]%orelse_Some; [|by apply run_ok_stop].
    apply run_ok_step; auto.
Qed.

Lemma lazy_sound ok lo hi pos s k e :
  lazy ok lo hi pos s k = Some e → run_ok ok lo hi pos s k e.
Proof.
  revert lo hi pos. induction s as [|c s IH]; intros lo hi pos; simpl.
  - intros [H|H]%orelse_Some; [by apply run_ok_stop|done].
  - intros [H|H]%orelse_Some; [by apply run_ok_stop|].
    destruct (ok c && more hi) eqn:Hc; [|done].
    apply andb_true_iff in Hc as [Hc Hm].
    apply run_ok_step; auto.
Qed.

Lemma greedy_complete ok lo hi pos w rest k :
  Str.all ok w = true → lo ≤ String.length w → within hi (String.length w) →
  is_Some (k (pos + String.length w) rest) →
  is_Some (greedy ok lo hi pos (w +:+ rest) k).
Proof.
  revert lo hi pos. induction w as [|c w IH]; intros lo hi pos Hw Hlo Hhi Hk.
  - simpl in *. rewrite Nat.add_0_r in Hk. assert (lo = 0) as -> by lia.
    rewrite app_empty_l. destruct rest as [|c s]; simpl; [done|].
    destruct (ok c && more hi); [|done]. apply orelse_is_Some. by right.
  - rewrite app_cons. simpl in *. apply andb_true_iff in Hw as [Hc Hw].
    apply more_within in Hhi as [Hm Hhi]. rewrite Hc, Hm. simpl.
    apply orelse_is_Some. left. apply IH; [done|lia|done|].
    by replace (S pos + String.length w) with (pos + S (String.length w)) by lia.
Qed.

Lemma lazy_complete ok lo hi pos w rest k :
  Str.all ok w = true → lo ≤ String.length w → within hi (String.length w) →
  is_Some (k (pos + String.length w) rest) →
  is_Some (lazy ok lo hi pos (w +:+ rest) k).
Proof.
  revert lo hi pos. induction w as [|c w IH]; intros lo hi pos Hw Hlo Hhi Hk.
  - simpl in *. rewrite Nat.add_0_r in Hk. assert (lo = 0) as -> by lia.
    rewrite app_empty_l. destruct rest as [|c s]; simpl;
      apply orelse_is_Some; by left.
  - rewrite app_cons. simpl in *. apply andb_true_iff in Hw as [Hc Hw].
    apply more_within in Hhi as [Hm Hhi]. rewrite Hc, Hm. simpl.
    apply orelse_is_Some. right. apply IH; [done|lia|done|].
    by replace (S pos + String.length w) with (pos + S (String.length w)) by lia.
Qed.

(** Whatever the matcher returns comes from a word of the language,
    followed by a successful continuation. *)
Lemma exec_sound r pos s k e :
  exec ic r pos s k = Some e →
  ∃ w rest, s = w +:+ rest ∧ lang ic r pos w rest
            ∧ k (pos + String.length w) rest = Some e.
Proof.
  revert pos s k. induction r as [a|g lo hi a|r1 IH1 r2 IH2|r1 IH1 r2 IH2| |];
    intros pos s k; simpl.
  - destruct s as [|c s]; [done|]. destruct (atom_ok ic a c) eqn:Hc; [|done].
    intros Hk. exists (String c ""), s. simpl.
    replace (pos + 1) with (S pos) by lia. eauto.
  - intros H. assert (run_ok (atom_ok ic a) lo hi pos s k e) as Hr.
    { destruct g; [by apply greedy_sound|by apply lazy_sound]. }
    destruct Hr as (w & rest & -> & ? & ? & ? & ?). by exists w, rest.
  - intros (w1 & t & -> & H1 & H)%IH1.
    apply IH2 in H as (w2 & rest & -> & H2 & Hk).
    exists (w1 +:+ w2), rest. rewrite app_assoc_str, length_app_str.
    rewrite Nat.add_assoc. split; [done|]. split; [|done]. by exists w1, w2.
  - intros [H|H]%orelse_Some.
    + apply IH1 in H as (w & rest & ? & ? & ?). exists w, rest. auto.
    + apply IH2 in H as (w & rest & ? & ? & ?). exists w, rest. auto.
  - destruct pos; [|done]. intros Hk. exists "", s. simpl. auto.
  - intros H. exists "", s. simpl. rewrite Nat.add_0_r.
    destruct s as [|c [|c' s]]; [auto|..|done].
    case_bool_decide as Hc; [|done]. subst c. auto.
Qed.

(** A word of the language followed by a successful continuation makes
    the matcher succeed. *)
Lemma exec_complete r pos w rest k :
  lang ic r pos w rest → is_Some (k (pos + String.length w) rest) →
  is_Some (exec ic r pos (w +:+ rest) k).
Proof.
  revert pos w rest k.
  induction r as [a|g lo hi a|r1 IH1 r2 IH2|r1 IH1 r2 IH2| |];
    intros pos w rest k; simpl.
  - intros (c & -> & Hc). rewrite app_cons, app_empty_l, Hc. simpl.
    by replace (pos + 1) with (S pos) by lia.
  - intros (Hw & Hlo & Hhi) Hk.
    destruct g; [by apply greedy_complete|by apply lazy_complete].
  - intros (w1 & w2 & -> & H1 & H2) Hk. rewrite app_assoc_str.
    apply IH1; [done|]. apply IH2; [done|].
    by rewrite length_app_str, Nat.add_assoc in Hk.
  - intros [H|H] Hk; apply orelse_is_Some; [left; by apply IH1|right; by apply IH2].
  - intros [-> ->]. by rewrite app_empty_l.
  - intros [-> [-> | ->]]; simpl; rewrite Nat.add_0_r; [done|].
    by rewrite app_empty_l.
Qed.

End Correct.

End Language.

(** ** The Roman numeral grammar *)

Global Arguments Char.lower : simpl never.
Global Arguments Str.lower : simpl never.

Lemma lower_cons c s : Str.lower (String c s) = String (Char.lower c) (Str.lower s).
Proof. reflexivity. Qed.

Lemma lower_empty : Str.lower "" = "".
Proof. reflexivity. Qed.

Lemma lower_length s : String.length (Str.lower s) = String.length s.
Proof. induction s as [|c s IH]; [done|]. rewrite lower_cons. simpl. by rewrite IH. Qed.

Lemma lower_repeat c k : Str.lower (Str.repeat c k) = Str.repeat (Char.lower c) k.
Proof. induction k as [|k IH]; [done|]. simpl. by rewrite lower_cons, IH. Qed.

Lemma repeat_length c k : String.length (Str.repeat c k) = k.
Proof. induction k as [|k IH]; [done|]. simpl. by rewrite IH. Qed.

Lemma all_lit_repeat c w :
  Str.all (atom_ok true (Lit c)) w = true
  ↔ Str.lower w = Str.repeat (Char.lower c) (String.length w).
Proof.
  induction w as [|x w IH]; [done|].
  rewrite lower_cons. simpl. rewrite andb_true_iff, IH.
  rewrite bool_decide_eq_true. split.
  - by intros [-> ->].
  - by intros [= -> ->].
Qed.

Lemma lang_upto n c pos w rest :
  lang true (upto n c) pos w rest ↔ copies n c w.
Proof.
  unfold upto, copies, same_letters. simpl. rewrite all_lit_repeat. split.
  - intros (Hw & _ & Hn). exists (String.length w). by rewrite lower_repeat.
  - intros (k & Hk & Hw). rewrite lower_repeat in Hw.
    assert (String.length w = k) as ->.
    { by rewrite <-(lower_length w), Hw, repeat_length. }
    split; [done|]. split; [lia|done].
Qed.

Lemma lang_chr c pos w rest :
  lang true (chr c) pos w rest ↔ ∃ x, w = String x "" ∧ Char.lower x = Char.lower c.
Proof. unfold chr. cbn [lang atom_ok]. by setoid_rewrite bool_decide_eq_true. Qed.

Lemma lang_pair a b pos w rest :
  lang true (chr a · chr b) pos w rest
  ↔ same_letters w (String a (String b "")).
Proof.
  unfold same_letters. cbn [lang]. setoid_rewrite lang_chr. split.
  - intros (w1 & w2 & -> & (x & -> & Hx) & (y & -> & Hy)).
    by rewrite app_cons, app_empty_l, !lower_cons, Hx, Hy.
  - destruct w as [|x [|y [|z w]]]; rewrite ?lower_cons, ?lower_empty; try done.
    intros [= Hx Hy]. exists (String x ""), (String y ""). eauto 10.
Qed.

Lemma lang_position a b c d five one pos w rest :
  lang true (chr a · chr b ∣ chr c · chr d ∣ opt five · upto 3 one) pos w rest
  ↔ position (String a (String b "")) (String c (String d "")) five one w.
Proof.
  unfold position. change (opt five) with (upto 1 five).
  rewrite !lang_alt, !lang_pair, lang_cat. split.
  - intros [[?|?]|(f & o & -> & Hf%lang_upto & Ho%lang_upto)]; eauto 10.
  - intros [?|[?|(f & o & -> & Hf & Ho)]]; [auto..|].
    right. exists f, o. split; [done|]. split; by apply lang_upto.
Qed.

Lemma lang_roman w rest :
  lang true (expr ROMAN_NUMERAL_PATTERN) 0 w rest
  ↔ roman_grammar w ∧ (rest = "" ∨ rest = newline).
Proof.
  unfold roman_grammar. cbn [expr ROMAN_NUMERAL_PATTERN].
  split.
  - rewrite !lang_cat.
    intros (w4 & e & -> & (w3 & u & -> & (w2 & t & -> & (w1 & h & -> &
      (b & m & -> & [-> _] & Hm) & Hh) & Ht) & Hu) & [-> He]).
    apply lang_upto in Hm. apply lang_position in Hh, Ht, Hu.
    split; [|done]. exists m, h, t, u.
    by rewrite app_empty_l, app_empty_r, !app_assoc_str.
  - intros [(m & h & t & u & -> & Hm & Hh & Ht & Hu) He].
    exists (m +:+ h +:+ t +:+ u), "". split; [by rewrite app_empty_r|].
    split; [|done].
    exists (m +:+ h +:+ t), u. split; [by rewrite !app_assoc_str|].
    split; [|by apply lang_position].
    exists (m +:+ h), t. split; [by rewrite !app_assoc_str|].
    split; [|by apply lang_position].
    exists m, h. split; [done|]. split; [|by apply lang_position].
    exists "", m. split; [done|]. split; [done|]. by apply lang_upto.
Qed.

(** The validator accepts exactly the words of the grammar and those words
    followed by one newline. *)
Lemma is_valid_roman_spec token :
  is_valid_roman token = true
  ↔ roman_grammar token ∨ ∃ t, token = t +:+ newline ∧ roman_grammar t.
Proof.
  unfold is_valid_roman, match_, match_at. rewrite bool_decide_eq_true. split.
  - intros [e (w & rest & -> & [Hw [-> | ->]]%lang_roman & _)%exec_sound].
    + left. by rewrite app_empty_r.
    + right. by exists w.
  - intros [Hg|(t & -> & Hg)].
    + rewrite <-(app_empty_r token). apply exec_complete; [|done].
      apply lang_roman. auto.
    + apply exec_complete; [|done]. apply lang_roman. auto.
Qed.

(** A word is in the grammar exactly when the pattern matches all of it:
    this decides the grammar. *)
Lemma roman_grammar_fullmatch s :
  roman_grammar s ↔ is_Some (fullmatch ROMAN_NUMERAL_PATTERN s).
Proof.
  unfold fullmatch. split.
  - intros Hg. rewrite <-(app_empty_r s). apply exec_complete; [|done].
    apply lang_roman. auto.
  - intros [e (w & rest & -> & [Hw _]%lang_roman & Hk)%exec_sound].
    destruct rest; [|done]. by rewrite app_empty_r.
Qed.

(** ** Reversal, prefixes and suffixes *)

Lemma rev_app_spec a b : String.rev_app a b = String.rev_app a "" +:+ b.
Proof.
  revert b. induction a as [|x a IH]; intros b; simpl; [done|].
  rewrite (IH (String x b)), (IH (String x "")). by rewrite app_assoc_str.
Qed.

Lemma rev_app_rev_app a b c :
  String.rev_app (String.rev_app a b) c = String.rev_app b (a +:+ c).
Proof.
  revert b c. induction a as [|x a IH]; intros b c; simpl; [done|].
  by rewrite IH.
Qed.

Lemma rev_involutive s : String.rev (String.rev s) = s.
Proof. unfold String.rev. rewrite rev_app_rev_app. simpl. apply app_empty_r. Qed.

Lemma rev_app_distr a b : String.rev (a +:+ b) = String.rev b +:+ String.rev a.
Proof.
  unfold String.rev. revert b. induction a as [|x a IH]; intros b.
  - by rewrite app_empty_l, app_empty_r.
  - rewrite app_cons. simpl. rewrite (rev_app_spec (a +:+ b)), IH.
    rewrite (rev_app_spec a (String x "")). by rewrite app_assoc_str.
Qed.

Lemma prefix_spec a b : String.prefix a b = true ↔ ∃ c, b = a +:+ c.
Proof.
  revert b. induction a as [|x a IH]; intros b.
  - destruct b; simpl; split; eauto.
  - destruct b as [|y b]; simpl.
    + split; [done|]. by intros [c ?].
    + destruct (ascii_dec x y) as [->|Hxy].
      * rewrite IH. split; intros [c Hc]; exists c.
        -- by rewrite app_cons, Hc.
        -- rewrite app_cons in Hc. congruence.
      * split; [done|]. intros [c Hc]. rewrite app_cons in Hc. congruence.
Qed.

Lemma endswith_spec s p : Str.endswith s p = true ↔ ∃ front, s = front +:+ p.
Proof.
  unfold Str.endswith. rewrite prefix_spec. split.
  - intros [c Hc]. exists (String.rev c).
    rewrite <-(rev_involutive s), Hc, rev_app_distr. by rewrite rev_involutive.
  - intros [front ->]. exists (String.rev front). apply rev_app_distr.
Qed.

Lemma endswith_any_punctuation token :
  Str.endswith_any token [","; "."; ";"; ":"] = true ↔ ends_in_punctuation token.
Proof.
  unfold Str.endswith_any, ends_in_punctuation. rewrite existsb_exists. split.
  - intros (mark & Hin & [front ->]%endswith_spec).
    exists front, mark. split; [done|]. by apply list_elem_of_In.
  - intros (front & mark & -> & Hin). exists mark.
    split; [by apply list_elem_of_In|]. apply endswith_spec. eauto.
Qed.

(** C1 (amended). On the strings of the alphabet U+0000..U+00FF that do not
    end in a newline, [is_valid_roman] returns true exactly on the words of
    the grammar, in either case of the letters.  XIV is accepted, IIII and
    VX are rejected.  The empty string is a word of the grammar and is
    accepted: the validator has no test of its own for it.  What the
    validator does with a string that ends in a newline, or with code points
    outside the alphabet, is left aside here. *)
Theorem is_valid_roman_grammar :
  (∀ token,
     Str.endswith token newline = false →
     (is_valid_roman token = true ↔ roman_grammar token))
  ∧ is_valid_roman "XIV" = true
  ∧ is_valid_roman "IIII" = false
  ∧ is_valid_roman "VX" = false
  ∧ is_valid_roman "" = true
  ∧ roman_grammar "".
Proof.
  split; [|split; [done|split; [done|split; [done|split; [done|]]]]].
  - intros token Hend. rewrite is_valid_roman_spec. split; [|auto].
    intros [Hg|(t & -> & _)]; [done|].
    assert (Str.endswith (t +:+ newline) newline = true) as Ht.
    { apply endswith_spec. eauto. }
    congruence.
  - apply roman_grammar_fullmatch. vm_compute. eauto.
Qed.

(** C1 at work on a numeral in small letters. *)
Lemma is_valid_roman_grammar_witness :
  is_valid_roman "mcmxciv" = true ↔ roman_grammar "mcmxciv".
Proof. apply (proj1 is_valid_roman_grammar "mcmxciv"). reflexivity. Defined.

(** C1, as stated, fails at the empty string: it is a word of the grammar,
    and the validator accepts it. *)
Lemma is_valid_roman_accepts_empty :
  is_valid_roman "" = true ∧ roman_grammar "".
Proof. split; [done|]. apply roman_grammar_fullmatch. vm_compute. eauto. Qed.

(** ** Splitting on blanks *)

Lemma any_rev_app p a b :
  Str.any p (String.rev_app a b) = Str.any p a || Str.any p b.
Proof.
  revert b. induction a as [|x a IH]; intros b; simpl; [done|].
  rewrite IH. simpl. destruct (p x), (Str.any p a); simpl; by rewrite ?orb_true_r.
Qed.

Lemma rev_app_empty a b : String.rev_app a b = "" → a = "" ∧ b = "".
Proof.
  revert b. induction a as [|x a IH]; intros b; simpl; [done|].
  by intros [_ [=]]%IH.
Qed.

Lemma split_go_tokens cur s :
  Str.any Char.isspace cur = false →
  Forall (λ t, t ≠ "" ∧ Str.any Char.isspace t = false) (Str.split_go cur s).
Proof.
  assert (∀ c cur, Str.any Char.isspace (String c cur) = false →
            String.rev (String c cur) ≠ ""
            ∧ Str.any Char.isspace (String.rev (String c cur)) = false) as Hrev.
  { intros c cur' Hc. unfold String.rev. split.
    - by intros [[=] _]%rev_app_empty.
    - by rewrite any_rev_app, Hc. }
  revert cur. induction s as [|c s IH]; intros cur Hcur; simpl.
  - destruct cur as [|x cur]; [constructor|]. constructor; [by apply Hrev|constructor].
  - destruct (Char.isspace c) eqn:Hc.
    + destruct cur as [|x cur]; [by apply IH|]. constructor; [by apply Hrev|by apply IH].
    + apply IH. simpl. by rewrite Hc.
Qed.

(** The tokens of [split] are not empty and hold no blank. *)
Lemma split_tokens s :
  Forall (λ t, t ≠ "" ∧ Str.any Char.isspace t = false) (Str.split s).
Proof. by apply split_go_tokens. Qed.

(** ** Removal of single characters *)

Lemma sub_one_class p s pos :
  sub_go (Pattern (One (Cls p)) false) 0 pos s = Str.filter (λ c, negb (p c)) s.
Proof.
  revert pos. induction s as [|c s IH]; intros pos; [done|].
  cbn [sub_go match_at exec expr ignorecase atom_ok Str.filter].
  destruct (p c); cbn [negb]; [|by rewrite IH].
  replace (S pos - pos) with 1 by lia. apply IH.
Qed.

Lemma strip_symbols_spec token : strip_symbols token = without_symbols token.
Proof.
  unfold strip_symbols, sub_empty, without_symbols. rewrite sub_one_class.
  induction token as [|c s IH]; [done|]. simpl. rewrite IH.
  by rewrite negb_involutive.
Qed.

(** ** The Roman numeral detector *)

Lemma foldl_append_omap {A B} (f : A → option B) (l : list A) (acc : list B) :
  foldl (λ acc a, acc ++ option_list (f a)) acc l = acc ++ omap f l.
Proof.
  revert acc. induction l as [|a l IH]; intros acc; simpl.
  - by rewrite app_nil_r.
  - rewrite IH. destruct (f a); simpl; [|by rewrite app_nil_r].
    by rewrite <-app_assoc.
Qed.

Lemma omap_lookup_sublist {A} (f : nat → option A) (l : list A) (k : nat) :
  (∀ i, f (k + i) = None ∨ f (k + i) = l !! i) →
  omap f (seq k (length l)) `sublist_of` l.
Proof.
  revert k. induction l as [|x l IH]; intros k Hf; simpl; [constructor|].
  assert (omap f (seq (S k) (length l)) `sublist_of` l) as Hl.
  { apply IH. intros i. replace (S k + i) with (k + S i) by lia. apply (Hf (S i)). }
  destruct (Hf 0) as [H0|H0]; rewrite Nat.add_0_r in H0; rewrite H0; simpl.
  - by apply sublist_cons.
  - by apply sublist_skip.
Qed.

Section Detector.

Context `{NLTK}.

(** The output lists, in the order of the rounds, what the rounds append. *)
Lemma find_valid_roman_numerals_rounds text :
  find_valid_roman_numerals text
  = omap (roman_round (Str.split text)) (seq 0 (length (Str.split text))).
Proof. unfold find_valid_roman_numerals. by rewrite foldl_append_omap. Qed.

(** A round appends nothing or the token of its index, which is then
    upper-case. *)
Lemma roman_round_Some tokens idx t :
  roman_round tokens idx = Some t → tokens !! idx = Some t ∧ Str.isupper t = true.
Proof.
  unfold roman_round. destruct (tokens !! idx) as [token|]; [|done].
  destruct (Str.isupper token) eqn:Hup; simpl; [|done].
  repeat case_bool_decide; try done.
  - destruct (tokens !! (idx - 1)) as [first_word|]; [|done].
    repeat case_match; try done. by intros [= <-].
  - case_match; [|done]. by intros [= <-].
Qed.

Lemma is_noun_spec word : is_noun word = true ↔ noun_in_isolation word.
Proof.
  unfold is_noun, noun_in_isolation, Str.startswith. simpl. apply prefix_spec.
Qed.

(** The round of a short upper-case token that is not the first one. *)
Lemma roman_round_short tokens before previous token :
  tokens !! S before = Some token → tokens !! before = Some previous →
  String.length token ≤ 2 → Str.isupper token = true →
  roman_round tokens (S before)
  = if Str.endswith_any previous [","; "."; ";"; ":"] then None
    else if is_noun (strip_symbols previous) && is_valid_roman token then Some token
    else None.
Proof.
  intros Ht Hp Hlen Hup. unfold roman_round, is_noun_roman_bigram.
  rewrite Ht, Hup. cbn [negb]. rewrite bool_decide_eq_true_2 by done.
  rewrite bool_decide_eq_false_2 by done.
  replace (S before - 1) with before by lia. by rewrite Hp.
Qed.

(** C3. A token of the whitespace split that has at most two characters and
    is upper-case is never appended when it is the first token; elsewhere
    it is appended exactly when the token before it does not end in a
    comma, period, semicolon or colon, is a noun when tagged alone without
    its symbols, and the token itself is a valid numeral.  The output is
    what the rounds append, in the order of the tokens. *)
Theorem short_token_rule text idx token :
  Str.split text !! idx = Some token →
  String.length token ≤ 2 →
  Str.isupper token = true →
  find_valid_roman_numerals text
  = omap (roman_round (Str.split text)) (seq 0 (length (Str.split text)))
  ∧ (idx = 0 → roman_round (Str.split text) idx = None)
  ∧ (∀ previous,
       0 < idx → Str.split text !! (idx - 1) = Some previous →
       (roman_round (Str.split text) idx = Some token
        ↔ short_token_context previous token)
       ∧ (roman_round (Str.split text) idx = None
          ↔ ¬ short_token_context previous token)).
Proof.
  intros Ht Hlen Hup. split; [apply find_valid_roman_numerals_rounds|]. split.
  - intros ->. unfold roman_round. rewrite Ht, Hup. cbn [negb].
    by rewrite !bool_decide_eq_true_2.
  - intros previous Hidx Hp. destruct idx as [|before]; [lia|].
    simpl in Hp. rewrite Nat.sub_0_r in Hp.
    rewrite (roman_round_short _ _ previous token) by done.
    unfold short_token_context.
    rewrite <-endswith_any_punctuation, <-strip_symbols_spec, <-is_noun_spec.
    destruct (Str.endswith_any previous _), (is_noun _), (is_valid_roman token);
      simpl; intuition congruence.
Qed.

End Detector.

(** C3 at work: in "Henry IV ruled" the second token is short and
    upper-case, and it is appended because of the noun before it. *)
Lemma short_token_rule_witness :
  roman_round (Str.split "Henry IV ruled") 1 = Some "IV"
  ↔ short_token_context "Henry" "IV".
Proof.
  apply (short_token_rule "Henry IV ruled" 1 "IV");
    [reflexivity | simpl; lia | reflexivity | lia | reflexivity].
Defined.

(** ** The pipeline *)

Lemma bind_Ok {A B} (r : result A) (k : A → result B) b :
  bind r k = Ok b → ∃ a, r = Ok a ∧ k a = Ok b.
Proof. destruct r; simpl; [eauto|done]. Qed.

Lemma apply_length {A B} (f : A → result B) col bs :
  apply f col = Ok bs → length bs = length col.
Proof.
  revert bs. induction col as [|a col IH]; intros bs; simpl.
  - by intros [= <-].
  - intros (b & _ & (bs' & Hbs & [= <-])%bind_Ok)%bind_Ok. simpl. by rewrite (IH bs').
Qed.

Lemma apply_strip_html_tags_non_text raw :
  Exists not_text raw → apply strip_html_tags raw = Raise TypeError.
Proof.
  induction raw as [|v raw IH]; intros Hex; [by apply Exists_nil in Hex|].
  apply Exists_cons in Hex. simpl. destruct v as [s| |n]; try done.
  destruct Hex as [[]|Hex]. by rewrite IH.
Qed.

Section Pipeline.

Context `{NLTK}.

Lemma preprocessing_length raw question :
  preprocessing raw = Ok question → length question = length raw.
Proof.
  unfold preprocessing.
  intros (stripped & Hs%apply_length & (unquoted & Hu%apply_length & [= <-])%bind_Ok)%bind_Ok.
  rewrite length_fmap. congruence.
Qed.

Lemma curate_Ok raw f :
  curate raw = Ok f →
  ∃ question, preprocessing raw = Ok question ∧ f = cells raw question.
Proof. unfold curate. intros (q & Hq & [= <-])%bind_Ok. eauto. Qed.

(** C2. In the frame the notebook builds, the [has_number] flag of every
    record is the disjunction of its three other number flags. *)
Theorem has_number_disjunction raw f i :
  curate raw = Ok f → i < length raw →
  ∃ spelled numerical roman,
    has_spelled_number f !! i = Some spelled
    ∧ has_numerical_value f !! i = Some numerical
    ∧ has_roman_numeral f !! i = Some roman
    ∧ has_number f !! i = Some (spelled || numerical || roman).
Proof.
  intros (question & Hq%preprocessing_length & ->)%curate_Ok Hi.
  destruct (lookup_lt_is_Some_2 question i) as [q Hqi]; [lia|].
  exists (has_spelled_number_of q), (has_numerical_value_of q),
    (nonempty (find_valid_roman_numerals q)).
  unfold cells, col_or. cbn [has_spelled_number has_numerical_value
    has_roman_numeral has_number].
  rewrite !lookup_zip_with, !list_lookup_fmap, Hqi. done.
Qed.

End Pipeline.

(** C2 at work on the second of two records. *)
Lemma has_number_disjunction_witness :
  ∃ spelled numerical roman,
    has_spelled_number (cells toy_raw toy_questions) !! 1 = Some spelled
    ∧ has_numerical_value (cells toy_raw toy_questions) !! 1 = Some numerical
    ∧ has_roman_numeral (cells toy_raw toy_questions) !! 1 = Some roman
    ∧ has_number (cells toy_raw toy_questions) !! 1
      = Some (spelled || numerical || roman).
Proof.
  apply (has_number_disjunction toy_raw (cells toy_raw toy_questions) 1);
    [reflexivity | simpl; lia].
Defined.

(** ** Records that are not text *)

Section Malformed.

Context `{NLTK}.

Lemma preprocessing_text raw :
  Forall (λ v, ¬ not_text v) raw →
  ∃ question, preprocessing raw = Ok question ∧ length question = length raw.
Proof.
  intros Hall. assert (∃ stripped, apply strip_html_tags raw = Ok stripped
                         ∧ Forall (λ v, ¬ not_text v) stripped) as (st & Hst & Hall').
  { induction Hall as [|v raw Hv _ (st & Hst & IH)]; simpl; [by exists []|].
    destruct v as [s| |n]; simpl in Hv; try tauto. rewrite Hst. simpl.
    eexists. split; [done|]. by constructor. }
  assert (∃ unquoted, apply strip_quotes st = Ok unquoted) as [un Hun].
  { clear Hst. induction Hall' as [|v st Hv _ [un Hun]]; simpl; [by exists []|].
    destruct v as [s| |n]; simpl in Hv; try tauto.
    rewrite Hun. unfold strip_quotes. repeat case_match; simpl; eauto. }
  exists (text_of <$> un). split.
  - unfold preprocessing. by rewrite Hst; simpl; rewrite Hun.
  - apply preprocessing_length. unfold preprocessing. by rewrite Hst; simpl; rewrite Hun.
Qed.

(** C7 (amended). A record whose question is not text makes the pre-cleaning
    raise [TypeError]: no frame is built, for that record or any other. *)
Theorem non_text_question_raises raw :
  Exists not_text raw →
  preprocessing raw = Raise TypeError ∧ curate raw = Raise TypeError.
Proof.
  intros Hex%apply_strip_html_tags_non_text.
  unfold curate, preprocessing. by rewrite Hex.
Qed.

End Malformed.

(** C7 at work: the second record has no question. *)
Lemma non_text_question_raises_witness :
  preprocessing [VStr "Henry VIII ruled England"; VMissing] = Raise TypeError
  ∧ curate [VStr "Henry VIII ruled England"; VMissing] = Raise TypeError.
Proof.
  apply (non_text_question_raises [VStr "Henry VIII ruled England"; VMissing]).
  apply Exists_cons_tl, Exists_cons_hd. exact I.
Defined.

(** C7, as stated, fails: with one record that has no question, the other
    records get no flags either, and the missing one is not read as empty
    text, which would give the frame of the last line. *)
Lemma missing_question_aborts_batch :
  curate [VStr "Henry VIII ruled England"; VMissing] = Raise TypeError
  ∧ curate [VStr "Henry VIII ruled England"; VStr ""]
    = Ok (cells [VStr "Henry VIII ruled England"; VStr ""]
                ["Henry VIII ruled England"; ""]).
Proof. split; reflexivity. Qed.

(** ** Non-English words *)

Lemma foldl_append_filter {A B} (g : A → bool) (h : A → B) (l : list A) (acc : list B) :
  foldl (λ acc a, if g a then acc ++ [h a] else acc) acc l
  = acc ++ (h <$> List.filter g l).
Proof.
  revert acc. induction l as [|a l IH]; intros acc; simpl.
  - by rewrite app_nil_r.
  - rewrite IH. destruct (g a); [|done]. simpl. by rewrite <-app_assoc.
Qed.

Lemma filter_filter_Prop {A} (r g : A → bool) (P : A → Prop) `{∀ x, Decision (P x)}
    (l : list A) :
  (∀ x, r x && g x = true ↔ P x) →
  List.filter g (List.filter r l) = filter P l.
Proof.
  intros HP. induction l as [|a l IH]; [done|]. simpl.
  rewrite filter_cons. specialize (HP a).
  destruct (r a); simpl in *.
  - destruct (g a); case_decide; try (by f_equal); try done;
      exfalso; intuition congruence.
  - case_decide; [exfalso; intuition congruence|done].
Qed.

Lemma filter_none {A} (g : A → bool) (l : list A) :
  (∀ x, g x = false) → List.filter g l = [].
Proof. intros Hg. induction l as [|a l IH]; [done|]. simpl. by rewrite Hg. Qed.

Section NonEnglish.

Context `{NLTK}.

Lemma in_wordnet_false lemma_word :
  in_wordnet lemma_word = false ↔ wordnet_synsets lemma_word = [].
Proof. unfold in_wordnet. by destruct (wordnet_synsets lemma_word). Qed.

Lemma in_en_dict_false word lemma_word :
  in_en_dict word lemma_word = false
  ↔ Forall (λ v, v ∉ ENGLISH_VOCAB) (case_variants lemma_word ++ [Str.lower word]).
Proof.
  unfold in_en_dict, upper_in_vocab, case_variants.
  rewrite !orb_false_iff, !bool_decide_eq_false.
  destruct (Str.upper lemma_word) as [u|]; simpl.
  - rewrite bool_decide_eq_false, !Forall_cons, Forall_nil. tauto.
  - rewrite !Forall_cons, Forall_nil. tauto.
Qed.

Lemma combined_round word :
  non_english_round "combined" word
  = negb (in_wordnet (lemmatize (Str.lower word))
          || in_en_dict word (lemmatize (Str.lower word))).
Proof. reflexivity. Qed.

Lemma flagged_either_spec stopword_list wt :
  retained stopword_list wt && non_english_round "combined" wt.1 = true
  ↔ flagged_either stopword_list wt.
Proof.
  rewrite combined_round. unfold retained, flagged_either. cbv zeta.
  rewrite !andb_true_iff, negb_true_iff, orb_false_iff.
  rewrite !bool_decide_eq_true, in_wordnet_false, in_en_dict_false.
  unfold excluded_pos_tags. tauto.
Qed.

(** C6. In the mode that consults both sources, the output lists, in the
    order of the sentence and as they are written, the tokens that are
    alphabetic, not stopwords, not tagged with an excluded tag, and whose
    lemma has no WordNet sense while no case variant of the lemma nor the
    lower-cased token is in the word list. *)
Theorem combined_mode_rule text stopword_list :
  find_non_english_word text "combined" stopword_list
  = (filter (flagged_either stopword_list) (pos_tag (word_tokenize text))).*1.
Proof.
  unfold find_non_english_word.
  rewrite (foldl_append_filter (λ wt, non_english_round "combined" wt.1) fst).
  simpl. f_equal. apply filter_filter_Prop. apply flagged_either_spec.
Qed.

Lemma unknown_round method word :
  method ≠ "wordnet" → method ≠ "en_dict" → method ≠ "combined" →
  non_english_round method word = false.
Proof.
  intros H1 H2 H3. unfold non_english_round.
  by rewrite !bool_decide_eq_false_2.
Qed.

(** C10. With a method other than the three the function knows, no round
    appends anything: the result is the empty list, and nothing is
    raised. *)
Theorem unknown_method_flags_nothing text method stopword_list :
  method ≠ "wordnet" → method ≠ "en_dict" → method ≠ "combined" →
  find_non_english_word text method stopword_list = [].
Proof.
  intros H1 H2 H3. unfold find_non_english_word.
  rewrite (foldl_append_filter (λ wt, non_english_round method wt.1) fst).
  rewrite filter_none; [done|]. intros wt. by apply unknown_round.
Qed.

End NonEnglish.

(** C10 at work: the name the mode has in the specification is not one the
    function knows. *)
Lemma unknown_method_flags_nothing_witness :
  find_non_english_word "The German word Weltschmerz has no direct translation"
                        "either" STOPWORDS = []
  ∧ find_non_english_word "The German word Weltschmerz has no direct translation"
                          "combined" STOPWORDS = ["Weltschmerz"].
Proof.
  split; [|reflexivity].
  apply (unknown_method_flags_nothing
           "The German word Weltschmerz has no direct translation" "either" STOPWORDS);
    discriminate.
Defined.

(** ** Sets of words *)

Lemma sets_meet_spec (a b : gset string) :
  sets_meet a b = true ↔ ∃ x, x ∈ a ∧ x ∈ b.
Proof.
  unfold sets_meet. rewrite bool_decide_eq_true. split.
  - intros [x Hx%elem_of_intersection]%set_choose_L. eauto.
  - intros (x & Ha & Hb) Hempty.
    assert (x ∈ a ∩ b) as Hx by (by apply elem_of_intersection).
    rewrite Hempty in Hx. by apply not_elem_of_empty in Hx.
Qed.

Lemma occurrences_snoc w tokens x :
  occurrences w (tokens ++ [x])
  = occurrences w tokens + (if decide (x = w) then 1 else 0).
Proof.
  unfold occurrences. rewrite filter_app, length_app. f_equal.
  rewrite filter_cons, filter_nil. by case_decide.
Qed.


(** The counter holds, for the words that occur, how often they occur. *)
Lemma FreqDist_lookup tokens w :
  FreqDist tokens !! w
  = if decide (occurrences w tokens = 0) then None else Some (occurrences w tokens).
Proof.
  induction tokens as [|x tokens IH] using rev_ind; [done|].
  unfold FreqDist in *. rewrite foldl_snoc, occurrences_snoc.
  destruct (decide (x = w)) as [->|Hx].
  - rewrite lookup_insert_eq, IH. repeat case_decide; simpl; try lia; f_equal; lia.
  - rewrite lookup_insert_ne, IH by done. rewrite Nat.add_0_r. done.
Qed.

Section Rarity.

Context `{NLTK}.

(** The unusual words are the tokens of the joined, lower-cased and
    stripped questions that occur there at most [threshold] times. *)
Lemma unusual_words_spec threshold questions w :
  w ∈ unusual_words_at threshold (generate_word_frequency questions)
  ↔ 1 ≤ occurrences w
          (word_tokenize (strip_html_tags_str (Str.lower (Str.join " " questions))))
      ≤ threshold.
Proof.
  unfold unusual_words_at, generate_word_frequency.
  rewrite elem_of_list_to_set, list_elem_of_fmap.
  set (tokens := word_tokenize _). split.
  - intros ([w' n] & -> & [Hin Hn]%list_elem_of_In%filter_In).
    apply list_elem_of_In in Hin. rewrite merge_sort_Permutation in Hin.
    apply elem_of_map_to_list in Hin. rewrite FreqDist_lookup in Hin.
    apply bool_decide_eq_true in Hn. simpl in *.
    case_decide; [done|]. injection Hin as <-. lia.
  - intros [Hlo Hhi]. exists (w, occurrences w tokens). split; [done|].
    apply list_elem_of_In, filter_In. split; [|by apply bool_decide_eq_true].
    apply list_elem_of_In. rewrite merge_sort_Permutation.
    apply elem_of_map_to_list. rewrite FreqDist_lookup. case_decide; [lia|done].
Qed.

(** The unusual words by their counts in the tokens that the function
    counts: with the threshold of the notebook, 2, a word counted three
    times is left out and a word counted once is in. *)
Lemma unusual_words_counts questions threshold w :
  let tokens :=
    word_tokenize (strip_html_tags_str (Str.lower (Str.join " " questions))) in
  (w ∈ unusual_words_at threshold (generate_word_frequency questions)
   ↔ 1 ≤ occurrences w tokens ≤ threshold)
  ∧ LOW_FREQUENCY_THRESHOLD = 2
  ∧ (occurrences w tokens = 3 →
     w ∉ unusual_words_at LOW_FREQUENCY_THRESHOLD (generate_word_frequency questions))
  ∧ (occurrences w tokens = 1 →
     w ∈ unusual_words_at LOW_FREQUENCY_THRESHOLD (generate_word_frequency questions)).
Proof.
  intros tokens. split; [apply unusual_words_spec|]. split; [done|].
  subst tokens. split.
  - intros H3 Hin%unusual_words_spec. unfold LOW_FREQUENCY_THRESHOLD in Hin. lia.
  - intros H1. apply unusual_words_spec. unfold LOW_FREQUENCY_THRESHOLD. lia.
Qed.


(** C8. The flag of a record is true exactly when a token of its
    lower-cased question is one of the spelled numbers.  Questions that
    differ in case only get the same flag, and a question whose only token
    is an inflected form that the list does not hold, such as "dozens", is
    not flagged. *)
Theorem spelled_number_rule :
  (∀ raw f i q,
     curate raw = Ok f → question f !! i = Some q →
     has_spelled_number f !! i = Some (has_spelled_number_of q))
  ∧ (∀ x,
       has_spelled_number_of x = true
       ↔ ∃ token, token ∈ word_tokenize (Str.lower x) ∧ token ∈ SPELLED_NUMBERS)
  ∧ (∀ x y,
       Str.lower x = Str.lower y →
       has_spelled_number_of x = has_spelled_number_of y)
  ∧ (∀ x,
       word_tokenize (Str.lower x) = ["dozens"] → has_spelled_number_of x = false)
  ∧ ("dozen" ∈ SPELLED_NUMBERS)
  ∧ ("dozens" ∉ SPELLED_NUMBERS).
Proof.
  assert (∀ x, has_spelled_number_of x = true
               ↔ ∃ token, token ∈ word_tokenize (Str.lower x) ∧ token ∈ SPELLED_NUMBERS)
    as Hspec.
  { intros x. unfold has_spelled_number_of, SPELLED_NUMBERS_SET.
    rewrite sets_meet_spec. by setoid_rewrite elem_of_list_to_set. }
  assert ("dozens" ∉ SPELLED_NUMBERS) as Hno by compute_done.
  split; [|split; [done|split; [|split; [|split; [compute_done|done]]]]].
  - intros raw f i q (qs & _ & ->)%curate_Ok Hq. unfold cells in *.
    cbn [has_spelled_number question] in *.
    by rewrite list_lookup_fmap, Hq.
  - intros x y Hxy. unfold has_spelled_number_of. by rewrite Hxy.
  - intros x Hx. apply not_true_is_false. intros (t & Ht & Hin)%Hspec.
    rewrite Hx in Ht. apply list_elem_of_singleton in Ht as ->. done.
Qed.

End Rarity.


(** C5, a defect of the code.  The two questions below come out of the
    pre-cleaning as they are, and "b" occurs once in the tokens of the
    corpus joined with spaces and lower-cased, so it should be an unusual
    word.  [generate_word_frequency] strips the joined text once more, which
    takes the [<] of the first question and the [>] of the second for a tag
    and removes what stands between them: "b" is not counted and is not an
    unusual word. *)
Theorem unusual_words_cross_question :
  preprocessing [VStr "a < b"; VStr "c > d"] = Ok ["a < b"; "c > d"]
  ∧ word_tokenize (Str.lower (Str.join " " ["a < b"; "c > d"]))
    = ["a"; "<"; "b"; "c"; ">"; "d"]
  ∧ occurrences "b" (word_tokenize (Str.lower (Str.join " " ["a < b"; "c > d"]))) = 1
  ∧ strip_html_tags_str (Str.lower (Str.join " " ["a < b"; "c > d"])) = "a  d"
  ∧ ("b" ∉ (generate_word_frequency ["a < b"; "c > d"]).*1)
  ∧ ("b" ∉ unusual_words_at LOW_FREQUENCY_THRESHOLD
             (generate_word_frequency ["a < b"; "c > d"])).
Proof.
  split; [done|]. split; [done|]. split; [done|]. split; [done|]. split.
  - intros ([w n] & Hw & Hin)%list_elem_of_fmap. simpl in Hw. subst w.
    unfold generate_word_frequency in Hin. rewrite merge_sort_Permutation in Hin.
    apply elem_of_map_to_list in Hin. rewrite FreqDist_lookup in Hin.
    by vm_compute in Hin.
  - intros Hin%unusual_words_spec. vm_compute in Hin. lia.
Qed.

(** ** The detectors on examples *)

Example roman_numerals_found :
  find_valid_roman_numerals "Henry VIII ruled England" = ["VIII"]
  ∧ find_valid_roman_numerals "Part II of Henry IV, I think" = ["II"]
  ∧ find_valid_roman_numerals "I met Henry, V and MIX" = ["MIX"].
Proof. repeat split; reflexivity. Qed.

Example spelled_numbers_found :
  has_spelled_number_of "Two DOZEN eggs" = true
  ∧ has_spelled_number_of "two dozen eggs" = true
  ∧ has_spelled_number_of "dozens of eggs" = false.
Proof. repeat split; reflexivity. Qed.

Example html_and_quotes_stripped :
  strip_html_tags (VStr "a <b>bold</b> &amp; &#123; x < y") = Ok (VStr "a bold   x < y")
  ∧ strip_quotes (VStr "'Henry VIII'") = Ok (VStr "Henry VIII")
  ∧ strip_quotes VMissing = Raise AttributeError.
Proof. repeat split; reflexivity. Qed.

(** * Further properties of the notebook's functions *)

(** ** Case *)

Ltac each_char c := destruct c as [[] [] [] [] [] [] [] []].

Lemma lower_idem_char c : Char.lower (Char.lower c) = Char.lower c.
Proof. each_char c; by vm_compute. Qed.

Lemma isupper_lower_char c : Char.isupper (Char.lower c) = false.
Proof. each_char c; by vm_compute. Qed.

Lemma lower_newline_char c : Char.lower c = "010"%char → c = "010"%char.
Proof. each_char c; by vm_compute. Qed.

Lemma roman_capital_char c :
  roman_small (Char.lower c) = true → Char.islower c = false →
  roman_capital c = true.
Proof. each_char c; by vm_compute. Qed.

Lemma lower_app a b : Str.lower (a +:+ b) = Str.lower a +:+ Str.lower b.
Proof.
  induction a as [|x a IH]; [done|]. by rewrite app_cons, !lower_cons, IH, app_cons.
Qed.

Lemma lower_idem s : Str.lower (Str.lower s) = Str.lower s.
Proof.
  induction s as [|x s IH]; [done|]. by rewrite !lower_cons, lower_idem_char, IH.
Qed.

Lemma lower_split b x y :
  Str.lower b = x +:+ y →
  ∃ b1 b2, b = b1 +:+ b2 ∧ Str.lower b1 = x ∧ Str.lower b2 = y.
Proof.
  revert b. induction x as [|c x IH]; intros b Hb.
  - exists "", b. by rewrite app_empty_l in *.
  - destruct b as [|d b]; [done|]. rewrite lower_cons, app_cons in Hb.
    injection Hb as Hd Hb. apply IH in Hb as (b1 & b2 & -> & H1 & H2).
    exists (String d b1), b2. by rewrite app_cons, lower_cons, Hd, H1.
Qed.

(** ** The Roman numeral validator *)

Lemma copies_same n c w w' : same_letters w' w → copies n c w → copies n c w'.
Proof. unfold copies, same_letters. intros Hw (k & Hk & Hc). exists k. by rewrite Hw. Qed.

Lemma position_same nine four five one w w' :
  same_letters w' w → position nine four five one w → position nine four five one w'.
Proof.
  unfold position, same_letters. intros Hw [H|[H|(f & o & -> & Hf & Ho)]].
  - left. congruence.
  - right. left. congruence.
  - right. right. rewrite lower_app in Hw.
    apply lower_split in Hw as (f' & o' & -> & Hf' & Ho').
    exists f', o'. split; [done|]. split; by eapply copies_same.
Qed.

Lemma roman_grammar_same s s' : same_letters s' s → roman_grammar s → roman_grammar s'.
Proof.
  unfold roman_grammar. intros Hs (m & h & t & u & -> & Hm & Hh & Ht & Hu).
  unfold same_letters in Hs. rewrite !lower_app in Hs.
  apply lower_split in Hs as (m' & r1 & -> & Hm' & Hs).
  apply lower_split in Hs as (h' & r2 & -> & Hh' & Hs).
  apply lower_split in Hs as (t' & u' & -> & Ht' & Hu').
  exists m', h', t', u'. split; [done|].
  split; [by eapply copies_same|].
  split; [by eapply position_same|].
  split; by eapply position_same.
Qed.

Lemma is_valid_roman_same a b :
  same_letters a b → is_valid_roman b = true → is_valid_roman a = true.
Proof.
  intros Hab [Hg|(t & -> & Hg)]%is_valid_roman_spec; apply is_valid_roman_spec.
  - left. by eapply roman_grammar_same.
  - right. unfold same_letters in Hab. rewrite lower_app in Hab.
    apply lower_split in Hab as (t' & n & -> & Ht' & Hn).
    destruct n as [|c [|c' n]]; try done. rewrite lower_cons in Hn.
    injection Hn as ->%lower_newline_char.
    exists t'. split; [done|]. by eapply roman_grammar_same.
Qed.

(** X1. The validator does not see the case of letters: two strings with
    the same lower-casing get the same verdict, and so do a string and its
    lower-casing. *)
Theorem is_valid_roman_ignores_case :
  (∀ a b, Str.lower a = Str.lower b → is_valid_roman a = is_valid_roman b)
  ∧ (∀ s, is_valid_roman (Str.lower s) = is_valid_roman s).
Proof.
  assert (∀ a b, Str.lower a = Str.lower b → is_valid_roman a = is_valid_roman b) as H.
  { intros a b Hab. apply eq_true_iff_eq.
    split; apply is_valid_roman_same; by unfold same_letters. }
  split; [done|]. intros s. apply H, lower_idem.
Qed.

Lemma copies_length n c w : copies n c w → String.length w ≤ n.
Proof.
  intros (k & Hk & Hw). unfold same_letters in Hw.
  rewrite <-(lower_length w), Hw, lower_length, repeat_length. done.
Qed.

Lemma same_letters_length a b : same_letters a b → String.length a = String.length b.
Proof. unfold same_letters. intros H. by rewrite <-(lower_length a), H, lower_length. Qed.

Lemma position_length a b c d five one w :
  position (String a (String b "")) (String c (String d "")) five one w →
  String.length w ≤ 4.
Proof.
  intros [H%same_letters_length|[H%same_letters_length|(f & o & -> & Hf & Ho)]].
  - rewrite H. simpl. lia.
  - rewrite H. simpl. lia.
  - apply copies_length in Hf, Ho. rewrite length_app_str. lia.
Qed.

Lemma roman_grammar_length s : roman_grammar s → String.length s ≤ 15.
Proof.
  intros (m & h & t & u & -> & Hm%copies_length & Hh%position_length
          & Ht%position_length & Hu%position_length).
  rewrite !length_app_str. lia.
Qed.

(** X2. A string the validator accepts has at most 15 characters, or 16
    when the last one is a newline. *)
Theorem is_valid_roman_length s :
  is_valid_roman s = true →
  String.length s ≤ 16
  ∧ (Str.any Char.isspace s = false → String.length s ≤ 15).
Proof.
  intros [Hg%roman_grammar_length|(t & -> & Hg%roman_grammar_length)]%is_valid_roman_spec.
  - split; [lia|done].
  - rewrite length_app_str. simpl. split; [lia|].
    intros Hs. exfalso. revert Hs. clear. induction t as [|c t IH]; [done|].
    rewrite app_cons. simpl. destruct (Char.isspace c); [done|]. apply IH.
Qed.

(** X2 at work: the longest numeral. *)
Lemma is_valid_roman_length_witness :
  String.length "MMMDCCCLXXXVIII" ≤ 16
  ∧ (Str.any Char.isspace "MMMDCCCLXXXVIII" = false
     → String.length "MMMDCCCLXXXVIII" ≤ 15).
Proof. apply (is_valid_roman_length "MMMDCCCLXXXVIII"). reflexivity. Defined.

(** The letters of the words of the grammar. *)
Lemma all_app_iff p a b :
  Str.all p (a +:+ b) = true ↔ Str.all p a = true ∧ Str.all p b = true.
Proof. by rewrite all_app, andb_true_iff. Qed.

Lemma all_small_repeat c k :
  roman_small c = true → Str.all roman_small (Str.repeat c k) = true.
Proof. intros Hc. induction k as [|k IH]; [done|]. simpl. by rewrite Hc, IH. Qed.

Lemma copies_small n c w :
  roman_small (Char.lower c) = true → copies n c w →
  Str.all roman_small (Str.lower w) = true.
Proof.
  intros Hc (k & _ & Hw). unfold same_letters in Hw.
  rewrite Hw, lower_repeat. by apply all_small_repeat.
Qed.

Lemma position_small nine four five one w :
  Str.all roman_small (Str.lower nine) = true →
  Str.all roman_small (Str.lower four) = true →
  roman_small (Char.lower five) = true → roman_small (Char.lower one) = true →
  position nine four five one w →
  Str.all roman_small (Str.lower w) = true.
Proof.
  intros H9 H4 H5 H1 [H|[H|(f & o & -> & Hf & Ho)]].
  - unfold same_letters in H. by rewrite H.
  - unfold same_letters in H. by rewrite H.
  - rewrite lower_app. apply all_app_iff.
    split; [by apply (copies_small 1 five)|by apply (copies_small 3 one)].
Qed.

Lemma roman_grammar_small s :
  roman_grammar s → Str.all roman_small (Str.lower s) = true.
Proof.
  intros (m & h & t & u & -> & Hm & Hh & Ht & Hu).
  rewrite !lower_app, !all_app_iff.
  split; [by apply (copies_small 3 "M")|].
  split; [by apply (position_small "CM" "CD" "D" "C")|].
  split; [by apply (position_small "XC" "XL" "L" "X")|].
  by apply (position_small "IX" "IV" "V" "I").
Qed.

Lemma all_roman_capital s :
  Str.all roman_small (Str.lower s) = true → Str.any Char.islower s = false →
  Str.all roman_capital s = true.
Proof.
  induction s as [|c s IH]; [done|]. rewrite lower_cons. simpl.
  intros [Hc Hs]%andb_true_iff [Hl Hls]%orb_false_iff.
  by rewrite roman_capital_char, IH.
Qed.

Lemma any_app p a b : Str.any p (a +:+ b) = Str.any p a || Str.any p b.
Proof.
  induction a as [|x a IH]; [done|]. rewrite app_cons. simpl.
  by rewrite IH, orb_assoc.
Qed.

Section DetectorOutput.

Context `{NLTK}.

Lemma roman_round_valid tokens idx t :
  roman_round tokens idx = Some t → is_valid_roman t = true.
Proof.
  unfold roman_round, is_noun_roman_bigram.
  destruct (tokens !! idx) as [token|]; [|done].
  destruct (Str.isupper token); cbn [negb]; [|done].
  case_bool_decide; [case_bool_decide; [done|]|].
  - destruct (tokens !! (idx - 1)) as [first_word|]; [|done].
    destruct (Str.endswith_any first_word _); [done|]. cbn [fst snd].
    destruct (is_noun _); cbn [andb]; [|done].
    destruct (is_valid_roman token) eqn:Hv; [|done]. by intros [= <-].
  - destruct (is_valid_roman token) eqn:Hv; [|done]. by intros [= <-].
Qed.

(** X3. On a text of the alphabet U+0000..U+00FF, every element of the
    output of [find_valid_roman_numerals] passes the validator, is a word of
    the grammar, and is written with the seven capital letters M, D, C, L,
    X, V, I only: it has between 1 and 15 of them.  A numeral with a
    punctuation mark attached is never returned. *)
Theorem roman_output_letters text :
  Forall (λ t, is_valid_roman t = true
               ∧ roman_grammar t
               ∧ Str.all roman_capital t = true
               ∧ 1 ≤ String.length t ≤ 15)
         (find_valid_roman_numerals text).
Proof.
  rewrite find_valid_roman_numerals_rounds. apply Forall_forall.
  intros t (idx & _ & Hr)%list_elem_of_omap.
  pose proof (roman_round_valid _ _ _ Hr) as Hv.
  apply roman_round_Some in Hr as [Hidx Hup].
  pose proof (split_tokens text) as Hsplit.
  eapply Forall_forall in Hsplit as [Hne Hsp]; [|by eapply list_elem_of_lookup_2].
  assert (roman_grammar t) as Hg.
  { apply is_valid_roman_spec in Hv as [Hg|(t' & -> & _)]; [done|].
    rewrite any_app in Hsp. apply orb_false_iff in Hsp as [_ Hsp]. done. }
  split; [done|]. split; [done|]. split.
  - apply all_roman_capital; [by apply roman_grammar_small|].
    unfold Str.isupper in Hup. apply andb_true_iff in Hup as [Hl _].
    by apply negb_true_iff in Hl.
  - split; [|by apply roman_grammar_length]. destruct t; [done|simpl; lia].
Qed.

End DetectorOutput.

Lemma split_go_any p cur s :
  Str.any p cur = false → Str.any p s = false →
  Forall (λ t, Str.any p t = false) (Str.split_go cur s).
Proof.
  assert (∀ cur, Str.any p cur = false → Str.any p (String.rev cur) = false) as Hrev.
  { intros cur' Hc. unfold String.rev. by rewrite any_rev_app, Hc. }
  revert cur. induction s as [|c s IH]; intros cur Hcur Hs; simpl in *.
  - destruct cur as [|x cur]; [constructor|]. constructor; [by apply Hrev|constructor].
  - apply orb_false_iff in Hs as [Hc Hs]. destruct (Char.isspace c).
    + destruct cur as [|x cur]; [by apply IH|]. constructor; [by apply Hrev|by apply IH].
    + apply IH; [|done]. simpl. by rewrite Hc.
Qed.

Lemma any_isupper_lower s : Str.any Char.isupper (Str.lower s) = false.
Proof.
  induction s as [|c s IH]; [done|]. rewrite lower_cons. simpl.
  by rewrite isupper_lower_char.
Qed.

Lemma occurrences_cons t x l :
  occurrences t (x :: l) = (if decide (x = t) then 1 else 0) + occurrences t l.
Proof. unfold occurrences. rewrite filter_cons. by case_decide. Qed.

Lemma occurrences_omap {A} (f : A → option string) (l : list A) t :
  occurrences t (omap f l) = length (filter (λ a, f a = Some t) l).
Proof.
  induction l as [|a l IH]; [done|]. rewrite filter_cons.
  change (omap f (a :: l))
    with (match f a with Some y => y :: omap f l | None => omap f l end).
  destruct (f a) as [y|] eqn:Hy.
  - rewrite occurrences_cons, IH. destruct (decide (y = t)) as [->|Hne].
    + by rewrite decide_True.
    + rewrite decide_False; [done|]. by intros [= ?].
  - by rewrite decide_False.
Qed.

Lemma omap_lookup_count (f : nat → option string) (l : list string) (k : nat) t :
  (∀ i, f (k + i) = Some t ↔ l !! i = Some t) →
  occurrences t (omap f (seq k (length l))) = occurrences t l.
Proof.
  revert k. induction l as [|x l IH]; intros k Hf; [done|].
  assert (occurrences t (omap f (seq (S k) (length l))) = occurrences t l) as Hl.
  { apply IH. intros i. replace (S k + i) with (k + S i) by lia. apply (Hf (S i)). }
  pose proof (Hf 0) as H0. rewrite Nat.add_0_r in H0. simpl in H0.
  rewrite (occurrences_cons t x l).
  change (omap f (seq k (length (x :: l))))
    with (match f k with
          | Some y => y :: omap f (seq (S k) (length l))
          | None => omap f (seq (S k) (length l))
          end).
  destruct (f k) as [y|] eqn:Hy.
  - rewrite occurrences_cons, Hl. f_equal.
    destruct (decide (y = t)) as [->|Hne].
    + destruct H0 as [H0 _]. injection (H0 eq_refl) as ->. by rewrite decide_True.
    + rewrite decide_False; [done|]. intros ->. destruct H0 as [_ H0].
      specialize (H0 eq_refl). congruence.
  - rewrite Hl. rewrite decide_False; [done|]. intros ->. destruct H0 as [_ H0].
    by specialize (H0 eq_refl).
Qed.

Section DetectorRules.

Context `{NLTK}.

Lemma roman_round_long tokens idx token :
  tokens !! idx = Some token → 2 < String.length token → Str.isupper token = true →
  roman_round tokens idx = if is_valid_roman token then Some token else None.
Proof.
  intros Ht Hlen Hup. unfold roman_round. rewrite Ht, Hup. cbn [negb].
  rewrite bool_decide_eq_false_2 by lia. done.
Qed.

(** X4. A token of more than two characters is judged on its own: it is in
    the output exactly when it is a token of the text, upper-case and a
    valid numeral, whatever stands before it and also at the start of the
    text. *)
Theorem long_token_found text token :
  2 < String.length token →
  token ∈ find_valid_roman_numerals text
  ↔ token ∈ Str.split text ∧ Str.isupper token = true ∧ is_valid_roman token = true.
Proof.
  intros Hlen. rewrite find_valid_roman_numerals_rounds, list_elem_of_omap. split.
  - intros (idx & _ & Hr). pose proof (roman_round_valid _ _ _ Hr) as Hv.
    apply roman_round_Some in Hr as [Hidx Hup].
    split; [by eapply list_elem_of_lookup_2|done].
  - intros ([idx Hidx]%list_elem_of_lookup_1 & Hup & Hv). exists idx. split.
    + apply elem_of_seq. split; [lia|]. simpl. by eapply lookup_lt_Some.
    + by rewrite (roman_round_long _ _ token), Hv.
Qed.

Lemma roman_round_not_upper tokens idx :
  (∀ t, tokens !! idx = Some t → Str.isupper t = false) →
  roman_round tokens idx = None.
Proof.
  intros Hup. unfold roman_round. destruct (tokens !! idx) as [t|]; [|done].
  by rewrite (Hup t).
Qed.

(** X5. A text without a capital letter has no Roman numeral for the
    detector: although the validator ignores case, the detector returns
    nothing on a lower-cased text. *)
Theorem no_capital_no_numeral :
  (∀ text, Str.any Char.isupper text = false → find_valid_roman_numerals text = [])
  ∧ (∀ text, find_valid_roman_numerals (Str.lower text) = []).
Proof.
  assert (∀ text, Str.any Char.isupper text = false
                  → find_valid_roman_numerals text = []) as Hno.
  { intros text Hup. rewrite find_valid_roman_numerals_rounds.
    induction (seq 0 _) as [|idx l IH]; [done|]. simpl.
    rewrite roman_round_not_upper; [done|].
    intros t Ht. pose proof (split_go_any Char.isupper "" text eq_refl Hup) as Hall.
    eapply Forall_forall in Hall; [|by eapply list_elem_of_lookup_2].
    unfold Str.isupper. by rewrite Hall, andb_false_r. }
  split; [done|]. intros text. apply Hno, any_isupper_lower.
Qed.

(** C9. Every element of the output is a token of the whitespace split, is
    upper-case and hence not empty, although the validator accepts the empty
    string.  The output keeps the order of the tokens and their repetitions:
    it lists, index after index, what each round appends, so a token is
    there once for every round that appends it; a token of more than two
    characters that is upper-case and valid is there as often as it is
    among the tokens of the text. *)
Theorem roman_output_shape text :
  find_valid_roman_numerals text `sublist_of` Str.split text
  ∧ Forall (λ t, t ∈ Str.split text ∧ Str.isupper t = true ∧ t ≠ "")
           (find_valid_roman_numerals text)
  ∧ find_valid_roman_numerals text
    = omap (roman_round (Str.split text)) (seq 0 (length (Str.split text)))
  ∧ (∀ idx t, roman_round (Str.split text) idx = Some t → Str.split text !! idx = Some t)
  ∧ (∀ t,
       occurrences t (find_valid_roman_numerals text)
       = length (filter (λ idx, roman_round (Str.split text) idx = Some t)
                        (seq 0 (length (Str.split text)))))
  ∧ (∀ t,
       2 < String.length t → Str.isupper t = true → is_valid_roman t = true →
       occurrences t (find_valid_roman_numerals text) = occurrences t (Str.split text))
  ∧ find_valid_roman_numerals "Henry VIII met Henry VIII" = ["VIII"; "VIII"]
  ∧ ("" ∉ find_valid_roman_numerals text)
  ∧ is_valid_roman "" = true.
Proof.
  assert (Forall (λ t, t ∈ Str.split text ∧ Str.isupper t = true ∧ t ≠ "")
            (find_valid_roman_numerals text)) as Hall.
  { rewrite find_valid_roman_numerals_rounds. apply Forall_forall.
    intros t (idx & _ & [Hidx Hup]%roman_round_Some)%list_elem_of_omap.
    split; [by eapply list_elem_of_lookup_2|]. split; [done|]. by intros ->. }
  split; [|split; [done|]].
  { rewrite find_valid_roman_numerals_rounds. apply omap_lookup_sublist.
    intros i. simpl. destruct (roman_round (Str.split text) i) as [t|] eqn:Hr; [|auto].
    apply roman_round_Some in Hr as [-> _]. auto. }
  split; [apply find_valid_roman_numerals_rounds|].
  split; [by intros idx t [? _]%roman_round_Some|].
  split; [intros t; rewrite find_valid_roman_numerals_rounds; apply occurrences_omap|].
  split.
  { intros t Hlen Hup Hv. rewrite find_valid_roman_numerals_rounds.
    apply omap_lookup_count. intros i. simpl. split.
    - by intros [? _]%roman_round_Some.
    - intros Hi. by rewrite (roman_round_long _ _ t), Hv. }
  split; [by vm_compute|]. split; [|done].
  intros Hin. eapply Forall_forall in Hall; [|done]. by destruct Hall as (_ & _ & ?).
Qed.

End DetectorRules.

(** X4 at work: a long numeral at the start of a text. *)
Lemma long_token_found_witness :
  "XIV" ∈ find_valid_roman_numerals "XIV is fourteen"
  ↔ "XIV" ∈ Str.split "XIV is fourteen" ∧ Str.isupper "XIV" = true
    ∧ is_valid_roman "XIV" = true.
Proof. apply (long_token_found "XIV is fourteen" "XIV"). simpl. lia. Defined.

(** ** Numerical values *)

Lemma search_one_class p s pos :
  is_Some (search_from (Pattern (One (Cls p)) false) pos s) ↔ Str.any p s = true.
Proof.
  revert pos. induction s as [|c s IH]; intros pos.
  - simpl. split; [by intros [? ?]|done].
  - cbn [search_from match_at exec expr ignorecase atom_ok Str.any].
    destruct (p c); simpl; [split; eauto|]. apply IH.
Qed.

(** X6. [has_numerical_value] holds exactly when a token of the question
    holds a decimal digit, wherever in the token. *)
Theorem has_numerical_value_digit `{NLTK} x :
  has_numerical_value_of x = true
  ↔ ∃ token, token ∈ word_tokenize x ∧ Str.any Char.isdecimal token = true.
Proof.
  unfold has_numerical_value_of. rewrite existsb_exists.
  split; intros (token & Hin & Hd); exists token.
  - split; [by apply list_elem_of_In|].
    apply bool_decide_eq_true in Hd. by apply search_one_class in Hd.
  - split; [by apply list_elem_of_In|].
    apply bool_decide_eq_true. by apply search_one_class.
Qed.

(** ** Non-English words: the word list *)

Lemma upper_fixed_char c us :
  Char.upper c = Some us → Str.lower us = us → us = String c "".
Proof.
  each_char c; intros Hu; vm_compute in Hu; try discriminate;
    injection Hu as <-; by vm_compute.
Qed.

Lemma app_inj_length a b a' b' :
  a +:+ b = a' +:+ b' → String.length a = String.length a' → a = a' ∧ b = b'.
Proof.
  revert a'. induction a as [|x a IH]; intros [|x' a'] Hab Hlen; try done.
  rewrite !app_cons in Hab. injection Hab as -> Hab. simpl in Hlen.
  destruct (IH a' Hab) as [-> ->]; [lia|done].
Qed.

Lemma upper_fixed s u : Str.upper s = Some u → Str.lower u = u → u = s.
Proof.
  revert u. induction s as [|c s IH]; intros u; simpl; [by intros [= <-]|].
  destruct (Char.upper c) as [uc|] eqn:Hc; [|done].
  destruct (Str.upper s) as [us|]; [|done]. intros [= <-] Hl.
  rewrite lower_app in Hl.
  apply app_inj_length in Hl as [Huc Hus]; [|apply lower_length].
  rewrite (upper_fixed_char _ _ Hc Huc), app_cons, app_empty_l.
  by rewrite (IH us).
Qed.

Section WordList.

Context `{NLTK}.

Lemma elem_of_ENGLISH_VOCAB x :
  x ∈ ENGLISH_VOCAB ↔ ∃ w, w ∈ words_words ∧ Str.lower w = x.
Proof.
  unfold ENGLISH_VOCAB. rewrite elem_of_list_to_set, list_elem_of_fmap.
  split; intros (w & ? & ?); eauto.
Qed.

Lemma ENGLISH_VOCAB_lower x : x ∈ ENGLISH_VOCAB → Str.lower x = x.
Proof. intros (w & _ & <-)%elem_of_ENGLISH_VOCAB. apply lower_idem. Qed.

Lemma in_en_dict_lower word lemma_word :
  in_en_dict word lemma_word
  = bool_decide (Str.lower lemma_word ∈ ENGLISH_VOCAB)
    || bool_decide (Str.lower word ∈ ENGLISH_VOCAB).
Proof.
  unfold in_en_dict, upper_in_vocab. apply eq_true_iff_eq.
  rewrite !orb_true_iff, !bool_decide_eq_true. split; [|tauto].
  intros [[[Hl|Hl]|Hu]|Hw]; [left|by left|left|by right].
  - by rewrite (ENGLISH_VOCAB_lower _ Hl).
  - destruct (Str.upper lemma_word) as [u|] eqn:Hup; [|done].
    apply bool_decide_eq_true in Hu.
    rewrite <-(upper_fixed _ _ Hup (ENGLISH_VOCAB_lower _ Hu)).
    by rewrite (ENGLISH_VOCAB_lower _ Hu).
Qed.

Lemma in_en_dict_words word lemma_word :
  in_en_dict word lemma_word = true
  ↔ ∃ w, w ∈ words_words
         ∧ (Str.lower w = Str.lower lemma_word ∨ Str.lower w = Str.lower word).
Proof.
  rewrite in_en_dict_lower, orb_true_iff, !bool_decide_eq_true.
  rewrite !elem_of_ENGLISH_VOCAB. split.
  - intros [(w & ? & ?)|(w & ? & ?)]; exists w; auto.
  - intros (w & ? & [?|?]); [left|right]; eauto.
Qed.

(** X7. The word list is consulted without regard to case: a word counts
    as English exactly when an entry of [words.words()] has the lower-casing
    of the lemma or of the word itself.  The look-ups of the lemma as it is
    and upper-cased add nothing, since the set holds lower-cased entries
    only. *)
Theorem in_en_dict_ignores_case word lemma_word :
  (in_en_dict word lemma_word = true
   ↔ ∃ w, w ∈ words_words
          ∧ (Str.lower w = Str.lower lemma_word ∨ Str.lower w = Str.lower word))
  ∧ in_en_dict word lemma_word
    = bool_decide (Str.lower lemma_word ∈ ENGLISH_VOCAB)
      || bool_decide (Str.lower word ∈ ENGLISH_VOCAB).
Proof. split; [apply in_en_dict_words|apply in_en_dict_lower]. Qed.

End WordList.

(** ** Non-English words: the modes *)

Lemma fst_imap_pair {A B} (g : nat → A → B) (l : list A) :
  fst <$> imap (λ i x, (x, g i x)) l = l.
Proof.
  revert g. induction l as [|x l IH]; intros g; [done|].
  simpl. f_equal. apply (IH (λ i, g (S i))).
Qed.

Lemma sublist_filter_fmap {A B} (g : A → bool) (h : A → B) (l : list A) :
  h <$> List.filter g l `sublist_of` h <$> l.
Proof.
  induction l as [|a l IH]; simpl; [constructor|].
  destruct (g a); simpl; [by apply sublist_skip|by apply sublist_cons].
Qed.

Lemma sublist_filter_weaken {A B} (P Q : A → Prop)
    `{∀ x, Decision (P x)} `{∀ x, Decision (Q x)} (h : A → B) (l : list A) :
  (∀ x, P x → Q x) → h <$> filter P l `sublist_of` h <$> filter Q l.
Proof.
  intros HPQ. induction l as [|a l IH]; [constructor|].
  rewrite !filter_cons. destruct (decide (P a)) as [HP|HP].
  - rewrite decide_True by auto. simpl. by apply sublist_skip.
  - destruct (decide (Q a)); simpl; [by apply sublist_cons|done].
Qed.

Section Modes.

Context `{NLTK}.

Lemma fst_pos_tag tokens : fst <$> pos_tag tokens = tokens.
Proof. unfold pos_tag. apply (fst_imap_pair (λ i _, tag_of tokens i)). Qed.

(** For every method, the output is what the two filters leave. *)
Lemma find_non_english_word_filter text method stopword_list :
  find_non_english_word text method stopword_list
  = fst <$> List.filter (λ wt, non_english_round method wt.1)
              (List.filter (retained stopword_list) (pos_tag (word_tokenize text))).
Proof.
  unfold find_non_english_word.
  by rewrite (foldl_append_filter (λ wt, non_english_round method wt.1) fst).
Qed.

Lemma retained_content_word stopword_list wt :
  retained stopword_list wt = true ↔ content_word stopword_list wt.
Proof.
  unfold retained, content_word, excluded_pos_tags.
  rewrite !andb_true_iff, !bool_decide_eq_true. tauto.
Qed.

Lemma wordnet_round word :
  non_english_round "wordnet" word = negb (in_wordnet (lemmatize (Str.lower word))).
Proof. unfold non_english_round. by destruct (in_wordnet _). Qed.

Lemma en_dict_round word :
  non_english_round "en_dict" word
  = negb (in_en_dict word (lemmatize (Str.lower word))).
Proof. unfold non_english_round. by destruct (in_en_dict _ _). Qed.

Lemma flagged_wordnet_spec stopword_list wt :
  retained stopword_list wt && non_english_round "wordnet" wt.1 = true
  ↔ flagged_wordnet stopword_list wt.
Proof.
  rewrite wordnet_round, andb_true_iff, negb_true_iff.
  by rewrite retained_content_word, in_wordnet_false.
Qed.

Lemma in_en_dict_unknown word lemma_word :
  in_en_dict word lemma_word = false
  ↔ Forall (λ w, Str.lower w ≠ Str.lower lemma_word ∧ Str.lower w ≠ Str.lower word)
           words_words.
Proof.
  rewrite <-not_true_iff_false, in_en_dict_words, Forall_forall. split.
  - intros Hno w Hw. split; intros Heq; apply Hno; eauto.
  - intros Hall (w & Hw & Heq). destruct (Hall w Hw). tauto.
Qed.

Lemma flagged_en_dict_spec stopword_list wt :
  retained stopword_list wt && non_english_round "en_dict" wt.1 = true
  ↔ flagged_en_dict stopword_list wt.
Proof.
  rewrite en_dict_round, andb_true_iff, negb_true_iff.
  by rewrite retained_content_word, in_en_dict_unknown.
Qed.

Lemma flagged_either_both stopword_list wt :
  flagged_either stopword_list wt
  ↔ flagged_wordnet stopword_list wt ∧ flagged_en_dict stopword_list wt.
Proof.
  rewrite <-flagged_either_spec, <-flagged_wordnet_spec, <-flagged_en_dict_spec.
  rewrite combined_round, wordnet_round, en_dict_round.
  destruct (retained _ _), (in_wordnet _), (in_en_dict _ _); simpl; intuition congruence.
Qed.

(** X8. In the mode "wordnet", the default, the output lists in order the
    content words (alphabetic, not a stopword, not of an excluded tag)
    whose lemma has no sense in WordNet; the word list plays no part. *)
Theorem wordnet_mode_rule text stopword_list :
  find_non_english_word text "wordnet" stopword_list
  = (filter (flagged_wordnet stopword_list) (pos_tag (word_tokenize text))).*1.
Proof.
  rewrite find_non_english_word_filter. f_equal.
  apply filter_filter_Prop, flagged_wordnet_spec.
Qed.

(** X9. In the mode "en_dict", the output lists in order the content words
    for which no entry of the word list has, lower-cased, the lower-casing
    of the lemma or of the word; WordNet senses play no part. *)
Theorem en_dict_mode_rule text stopword_list :
  find_non_english_word text "en_dict" stopword_list
  = (filter (flagged_en_dict stopword_list) (pos_tag (word_tokenize text))).*1.
Proof.
  rewrite find_non_english_word_filter. f_equal.
  apply filter_filter_Prop, flagged_en_dict_spec.
Qed.

(** X10. The mode "combined" is the strictest: it flags a token exactly
    when both other modes flag it, so its output is obtained from the
    output of either mode by leaving words out. *)
Theorem combined_mode_strictest text stopword_list :
  find_non_english_word text "combined" stopword_list
  = (filter (λ wt, flagged_wordnet stopword_list wt ∧ flagged_en_dict stopword_list wt)
            (pos_tag (word_tokenize text))).*1
  ∧ find_non_english_word text "combined" stopword_list
    `sublist_of` find_non_english_word text "wordnet" stopword_list
  ∧ find_non_english_word text "combined" stopword_list
    `sublist_of` find_non_english_word text "en_dict" stopword_list.
Proof.
  assert (find_non_english_word text "combined" stopword_list
          = (filter (λ wt, flagged_wordnet stopword_list wt
                           ∧ flagged_en_dict stopword_list wt)
                    (pos_tag (word_tokenize text))).*1) as Heq.
  { rewrite find_non_english_word_filter. f_equal.
    apply filter_filter_Prop. intros wt.
    by rewrite flagged_either_spec, flagged_either_both. }
  split; [done|]. rewrite Heq. split.
  - rewrite find_non_english_word_filter.
    rewrite (filter_filter_Prop _ _ (flagged_wordnet stopword_list))
      by apply flagged_wordnet_spec.
    apply sublist_filter_weaken. tauto.
  - rewrite find_non_english_word_filter.
    rewrite (filter_filter_Prop _ _ (flagged_en_dict stopword_list))
      by apply flagged_en_dict_spec.
    apply sublist_filter_weaken. tauto.
Qed.

(** X11. Whatever the method, the words returned are tokens of the text in
    their order, each alphabetic and, lower-cased, not a stopword. *)
Theorem non_english_output_shape text method stopword_list :
  find_non_english_word text method stopword_list `sublist_of` word_tokenize text
  ∧ Forall (λ word, Str.isalpha word = true ∧ Str.lower word ∉ stopword_list)
           (find_non_english_word text method stopword_list).
Proof.
  rewrite find_non_english_word_filter. split.
  - etrans; [apply sublist_filter_fmap|].
    etrans; [apply sublist_filter_fmap|]. by rewrite fst_pos_tag.
  - apply Forall_forall. intros word (wt & -> & Hin)%list_elem_of_fmap.
    apply list_elem_of_In, filter_In in Hin as [Hin _].
    apply filter_In in Hin as [_ (Ha & Hs & _)%retained_content_word]. done.
Qed.

(** X12. The proper nouns returned are tokens of the text, in their
    order and with their repetitions. *)
Theorem proper_nouns_sublist text :
  find_proper_nouns text `sublist_of` word_tokenize text.
Proof.
  unfold find_proper_nouns. etrans; [apply sublist_filter_fmap|].
  by rewrite fst_pos_tag.
Qed.

End Modes.

(** ** The frequency table *)

Global Instance more_frequent_total : Total more_frequent.
Proof. intros a b. unfold more_frequent. lia. Qed.



Section FrequencyTable.

Context `{NLTK}.





End FrequencyTable.

(** ** Quotes *)

Lemma substring_0_app a b : String.substring 0 (String.length a) (a +:+ b) = a.
Proof.
  induction a as [|x a IH]; [by destruct b|]. rewrite app_cons. simpl. by rewrite IH.
Qed.

Lemma slice_wrapped q r s : slice_1_m1 (String q (s +:+ String r "")) = s.
Proof.
  unfold slice_1_m1. simpl. rewrite length_app_str. simpl.
  replace (String.length s + 1 - 1) with (String.length s) by lia.
  apply substring_0_app.
Qed.

Lemma startswith_cons c s q :
  Str.startswith (String c s) (String q "") = bool_decide (q = c).
Proof.
  unfold Str.startswith. simpl.
  destruct (ascii_dec q c); [by rewrite bool_decide_eq_true_2; [destruct s|]|].
  by rewrite bool_decide_eq_false_2.
Qed.

Lemma snoc_inj a b c d : a +:+ String c "" = b +:+ String d "" → c = d.
Proof.
  intros Heq. apply (f_equal String.rev) in Heq.
  rewrite !rev_app_distr in Heq. by injection Heq.
Qed.

Lemma endswith_snoc s c q :
  Str.endswith (s +:+ String c "") (String q "") = bool_decide (q = c).
Proof.
  apply eq_true_iff_eq. rewrite endswith_spec, bool_decide_eq_true. split.
  - intros [front Hf]. by apply snoc_inj in Hf.
  - intros ->. eauto.
Qed.

Lemma endswith_wrapped x s c q :
  Str.endswith (String x (s +:+ String c "")) (String q "") = bool_decide (q = c).
Proof. rewrite <-app_cons. apply endswith_snoc. Qed.

(** X16. A text wrapped in a pair of double quotes or in a pair of single
    quotes loses exactly that pair: one layer is removed and the text
    inside is returned as it is. *)
Theorem strip_quotes_wrapped s :
  strip_quotes (VStr (dquote +:+ s +:+ dquote)) = Ok (VStr s)
  ∧ strip_quotes (VStr (squote +:+ s +:+ squote)) = Ok (VStr s).
Proof.
  unfold strip_quotes, dquote, squote. rewrite !app_cons, !app_empty_l.
  rewrite !startswith_cons, !endswith_wrapped, !slice_wrapped. done.
Qed.

(** X17. Quotes that do not match stay: a text that opens with one kind of
    quote and closes with the other is returned unchanged. *)
Theorem strip_quotes_mismatched s :
  strip_quotes (VStr (dquote +:+ s +:+ squote)) = Ok (VStr (dquote +:+ s +:+ squote))
  ∧ strip_quotes (VStr (squote +:+ s +:+ dquote)) = Ok (VStr (squote +:+ s +:+ dquote)).
Proof.
  unfold strip_quotes, dquote, squote. rewrite !app_cons, !app_empty_l.
  rewrite !startswith_cons, !endswith_wrapped. done.
Qed.

(** ** Tags *)

Lemma sub_go_sublist p skip pos s :
  chars (sub_go p skip pos s) `sublist_of` chars s.
Proof.
  revert skip pos. induction s as [|c s IH]; intros skip pos; [done|].
  cbn [sub_go]. destruct skip as [|n].
  - destruct (match_at p pos (String c s)) as [e|].
    + destruct (e - pos); [by apply sublist_skip|by apply sublist_cons].
    + by apply sublist_skip.
  - by apply sublist_cons.
Qed.

Lemma chars_length s : length (chars s) = String.length s.
Proof. induction s as [|c s IH]; [done|]. simpl. by rewrite IH. Qed.

(** X18. [strip_html_tags] only removes: its result is obtained from the
    text by leaving characters out, and is never longer. *)
Theorem strip_html_tags_only_removes text :
  chars (strip_html_tags_str text) `sublist_of` chars text
  ∧ String.length (strip_html_tags_str text) ≤ String.length text.
Proof.
  assert (chars (strip_html_tags_str text) `sublist_of` chars text) as Hsub.
  { apply sub_go_sublist. }
  split; [done|]. rewrite <-!chars_length. by apply sublist_length.
Qed.

Lemma clean_no_match c s pos :
  c ≠ "<"%char → c ≠ "&"%char → match_at clean pos (String c s) = None.
Proof.
  intros H1 H2. unfold match_at. cbn [clean expr ignorecase exec chr atom_ok orelse].
  by rewrite !bool_decide_eq_false_2.
Qed.

Lemma sub_go_clean_plain pos s :
  Str.any (λ c, bool_decide (c = "<"%char) || bool_decide (c = "&"%char)) s = false →
  sub_go clean 0 pos s = s.
Proof.
  revert pos. induction s as [|c s IH]; intros pos Hs; [done|].
  simpl in Hs. apply orb_false_iff in Hs as [Hc Hs].
  apply orb_false_iff in Hc as [H1%bool_decide_eq_false H2%bool_decide_eq_false].
  cbn [sub_go]. rewrite clean_no_match by done. by rewrite IH.
Qed.

Lemma bracket_lower_char c :
  bool_decide (Char.lower c = "<"%char) || bool_decide (Char.lower c = "&"%char)
  = bool_decide (c = "<"%char) || bool_decide (c = "&"%char).
Proof. each_char c; by vm_compute. Qed.

(** Where the joined questions hold neither [<] nor [&], the second
    stripping changes nothing, and the unusual words are the tokens of the
    joined, lower-cased corpus that occur there at most [threshold] times. *)
Lemma unusual_words_plain_corpus `{NLTK} questions threshold w :
  Str.any (λ c, bool_decide (c = "<"%char) || bool_decide (c = "&"%char))
          (Str.join " " questions) = false →
  w ∈ unusual_words_at threshold (generate_word_frequency questions)
  ↔ 1 ≤ occurrences w (word_tokenize (Str.lower (Str.join " " questions)))
      ≤ threshold.
Proof.
  intros Hplain. rewrite unusual_words_spec.
  unfold strip_html_tags_str, sub_empty. rewrite sub_go_clean_plain; [done|].
  revert Hplain. generalize (Str.join " " questions). intros s.
  induction s as [|c s IH]; [done|]. rewrite lower_cons. simpl.
  intros [Hc Hs]%orb_false_iff. by rewrite bracket_lower_char, Hc, IH.
Qed.

(** X19. A text without [<] and without [&] is returned as it is. *)
Theorem strip_html_tags_plain text :
  Str.any (λ c, bool_decide (c = "<"%char) || bool_decide (c = "&"%char)) text = false →
  strip_html_tags_str text = text.
Proof. apply sub_go_clean_plain. Qed.

(** X19 at work. *)
Lemma strip_html_tags_plain_witness :
  strip_html_tags_str "Henry VIII ruled in 1520" = "Henry VIII ruled in 1520".
Proof. apply (strip_html_tags_plain "Henry VIII ruled in 1520"). reflexivity. Defined.

Lemma lang_chr_plain ic c pos w rest :
  lang ic (chr c) pos w rest → ∃ x, w = String x "" ∧ atom_ok ic (Lit c) x = true.
Proof. done. Qed.

Lemma lang_within ic q r pos w rest :
  atoms_within ic q r → lang ic r pos w rest → Str.all q w = true.
Proof.
  revert pos w rest. induction r as [a|g lo hi a|r1 IH1 r2 IH2|r1 IH1 r2 IH2| |];
    intros pos w rest; simpl.
  - intros Ha (c & -> & Hc). simpl. by rewrite (Ha c Hc).
  - intros Ha (Hw & _ & _). revert Hw. clear -Ha.
    induction w as [|c w IH]; [done|]. simpl.
    intros [Hc Hw]%andb_true_iff. by rewrite (Ha c Hc), IH.
  - intros [H1 H2] (w1 & w2 & -> & Hw1 & Hw2). apply all_app_iff. eauto.
  - intros [H1 H2] [Hw|Hw]; eauto.
  - by intros _ [-> _].
  - by intros _ [-> _].
Qed.

Lemma clean_atoms_dot : atoms_within false dot (expr clean).
Proof.
  cbn [clean expr atoms_within chr atom_ok].
  repeat split; intros c; try (by intros ->%bool_decide_eq_true);
    each_char c; by vm_compute.
Qed.

(** What [clean] matches is not empty and holds no newline. *)
Lemma clean_match pos s e :
  match_at clean pos s = Some e →
  ∃ c w rest, s = String c w +:+ rest ∧ e = pos + S (String.length w)
              ∧ Str.all dot (String c w) = true.
Proof.
  unfold match_at. intros (w & rest & -> & Hl & [= <-])%exec_sound.
  pose proof (lang_within _ _ _ _ _ _ clean_atoms_dot Hl) as Hdot.
  destruct w as [|c w]; [|by exists c, w, rest].
  exfalso. revert Hl. cbn [clean expr]. rewrite lang_alt, !lang_cat.
  intros [(w1 & w2 & Hw & (w3 & w4 & -> & Hc%lang_chr_plain & _) & _)
         |(w1 & w2 & Hw & (w3 & w4 & -> & Hc%lang_chr_plain & _) & _)];
    destruct Hc as (x & -> & _); symmetry in Hw;
    by apply app_eq_empty in Hw as [[[=] _]%app_eq_empty _].
Qed.

Lemma closes_split s :
  closes s = true → ∃ b c, s = b +:+ String ">" c ∧ Str.all dot b = true.
Proof.
  induction s as [|x s IH]; [done|]. simpl. case_bool_decide as Hx.
  - subst x. intros _. by exists "", s.
  - destruct (dot x) eqn:Hd; [|done]. intros (b & c & -> & Hb)%IH.
    exists (String x b), c. simpl. by rewrite Hd, Hb.
Qed.

Lemma closes_app b c : Str.all dot b = true → closes (b +:+ String ">" c) = true.
Proof.
  induction b as [|x b IH]; [done|]. rewrite app_cons. simpl.
  intros [Hx Hb]%andb_true_iff. case_bool_decide; [done|]. by rewrite Hx, IH.
Qed.

(** Where [clean] finds no match at a [<], no [>] closes it on its line. *)
Lemma open_tag_no_match pos s :
  match_at clean pos (String "<" s) = None → closes s = false.
Proof.
  intros Hnone. apply not_true_is_false. intros (b & c & -> & Hb)%closes_split.
  assert (is_Some (match_at clean pos (String "<" b +:+ String ">" "" +:+ c))) as [e He].
  { unfold match_at. rewrite <-app_assoc_str. apply exec_complete; [|done].
    cbn [clean expr]. apply lang_alt. left.
    exists (String "<" b), (String ">" ""). split; [done|]. split.
    - exists (String "<" ""), b. split; [done|]. split.
      + exists "<"%char. by split.
      + cbn [lang atom_ok]. split; [done|]. split; [lia|done].
    - exists ">"%char. by split. }
  rewrite app_cons, app_cons, app_empty_l in He. congruence.
Qed.

Lemma closes_sub_go skip pos s :
  clear_for skip s = true →
  closes (sub_go clean skip pos s) = true → closes s = true.
Proof.
  revert skip pos. induction s as [|c s IH]; intros skip pos Hclear; [done|].
  assert (∀ n pos', dot c = true → clear_for n s = true →
            closes (sub_go clean n pos' s) = true → closes (String c s) = true) as Hdrop.
  { intros n pos' Hc Hn Hout. simpl. case_bool_decide; [done|].
    rewrite Hc. by eapply IH. }
  assert (closes (String c (sub_go clean 0 (S pos) s)) = true
          → closes (String c s) = true) as Hkeep.
  { simpl. case_bool_decide; [done|]. destruct (dot c); [|done]. by apply IH. }
  cbn [sub_go]. destruct skip as [|n].
  - destruct (match_at clean pos (String c s)) as [e|] eqn:Hm; [|done].
    destruct (e - pos) as [|n] eqn:He; [done|].
    apply clean_match in Hm as (c' & w & rest & Hs & -> & Hw).
    rewrite app_cons in Hs. injection Hs as <- ->.
    simpl in Hw. apply andb_true_iff in Hw as [Hc Hw].
    assert (n = String.length w) as -> by lia.
    apply Hdrop; [done|]. clear -Hw. induction w as [|x w IH]; [done|].
    rewrite app_cons. simpl in *. apply andb_true_iff in Hw as [-> Hw]. by apply IH.
  - simpl in Hclear. apply andb_true_iff in Hclear as [Hc Hn]. by apply Hdrop.
Qed.

Lemma has_tag_sub_go skip pos s : has_tag (sub_go clean skip pos s) = false.
Proof.
  revert skip pos. induction s as [|c s IH]; intros skip pos; [done|].
  assert (match_at clean pos (String c s) = None
          → has_tag (String c (sub_go clean 0 (S pos) s)) = false) as Hkeep.
  { intros Hm. simpl. rewrite IH, orb_false_r. case_bool_decide as Hc; [|done].
    subst c. simpl. apply not_true_is_false.
    intros Hout%closes_sub_go; [|done].
    by rewrite (open_tag_no_match _ _ Hm) in Hout. }
  cbn [sub_go]. destruct skip as [|n]; [|done].
  destruct (match_at clean pos (String c s)) as [e|] eqn:Hm; [|by apply Hkeep].
  destruct (e - pos) as [|n] eqn:He; [|done].
  apply clean_match in Hm as (c' & w & rest & _ & -> & _). lia.
Qed.

Lemma has_tag_app a b c :
  Str.all dot b = true → has_tag (a +:+ String "<" (b +:+ String ">" c)) = true.
Proof.
  intros Hb. induction a as [|x a IH].
  - rewrite app_empty_l. simpl. by rewrite closes_app.
  - rewrite app_cons. simpl. by rewrite IH, orb_true_r.
Qed.

(** X20. No tag is left on a line: wherever the result of [strip_html_tags]
    holds a [<] and, later, a [>], a newline stands between them. *)
Theorem strip_html_tags_no_tag_left text a b c :
  strip_html_tags_str text = a +:+ "<" +:+ b +:+ ">" +:+ c →
  Str.any (Char.code_is 10) b = true.
Proof.
  intros Hout. destruct (Str.any (Char.code_is 10) b) eqn:Hb; [done|].
  exfalso. pose proof (has_tag_sub_go 0 0 text) as Hno.
  unfold strip_html_tags_str, sub_empty in Hout. rewrite Hout in Hno.
  change (a +:+ "<" +:+ b +:+ ">" +:+ c)
    with (a +:+ String "<" (b +:+ String ">" c)) in Hno.
  rewrite has_tag_app in Hno; [done|].
  clear -Hb. induction b as [|x b IH]; [done|]. simpl in *.
  apply orb_false_iff in Hb as [Hx Hb]. rewrite IH by done. unfold dot. by rewrite Hx.
Qed.

(** X20 at work: an opening and a closing bracket on two lines stay. *)
Lemma strip_html_tags_no_tag_left_witness :
  strip_html_tags_str ("a <" +:+ newline +:+ "> b")
  = "a " +:+ "<" +:+ newline +:+ ">" +:+ " b"
  ∧ Str.any (Char.code_is 10) newline = true.
Proof.
  split; [reflexivity|].
  apply (strip_html_tags_no_tag_left ("a <" +:+ newline +:+ "> b") "a " newline " b").
  reflexivity.
Defined.

(** ** The pre-cleaning and the frame *)

Lemma strip_quotes_unquoted s : strip_quotes (VStr s) = Ok (VStr (unquoted s)).
Proof. unfold strip_quotes, unquoted. by repeat case_match. Qed.

Lemma apply_text (f : value → result value) (g : string → string) texts :
  (∀ s, f (VStr s) = Ok (VStr (g s))) →
  apply f (VStr <$> texts) = Ok (VStr <$> (g <$> texts)).
Proof.
  intros Hf. induction texts as [|s texts IH]; [done|].
  rewrite !fmap_cons. cbn [apply]. rewrite Hf. cbn [bind]. by rewrite IH.
Qed.

Lemma substring_length n m u :
  String.length (String.substring n m u) ≤ String.length u.
Proof.
  revert n m. induction u as [|c u IH]; intros n m.
  - destruct n, m; simpl; lia.
  - pose proof (IH 0 (pred m)). pose proof (IH (pred n) m).
    destruct n, m; simpl in *; lia.
Qed.

Section Frame.

Context `{NLTK}.

Lemma preprocessing_texts texts :
  preprocessing (VStr <$> texts)
  = Ok ((λ s, unquoted (strip_html_tags_str s)) <$> texts).
Proof.
  unfold preprocessing.
  rewrite (apply_text strip_html_tags strip_html_tags_str) by done. simpl.
  rewrite (apply_text strip_quotes unquoted) by apply strip_quotes_unquoted. simpl.
  f_equal. rewrite <-!list_fmap_compose. by apply list_fmap_ext.
Qed.

(** X21. When every question is text, the pre-cleaning succeeds and cleans
    each record on its own: the tags are stripped first, then one pair of
    quotes around what is left; the order and number of records are kept.
    A quote that a tag hides is thus removed as well. *)
Theorem preprocessing_record_wise texts :
  preprocessing (VStr <$> texts)
  = Ok ((λ s, unquoted (strip_html_tags_str s)) <$> texts)
  ∧ (∀ i s,
       texts !! i = Some s →
       ∃ questions,
         preprocessing (VStr <$> texts) = Ok questions
         ∧ questions !! i = Some (unquoted (strip_html_tags_str s))
         ∧ String.length (unquoted (strip_html_tags_str s)) ≤ String.length s).
Proof.
  split; [apply preprocessing_texts|]. intros i s Hs. eexists.
  split; [apply preprocessing_texts|]. split; [by rewrite list_lookup_fmap, Hs|].
  etrans; [|apply Nat.le_trans with (String.length (strip_html_tags_str s));
            [done|rewrite <-!chars_length; apply sublist_length, sub_go_sublist]].
  generalize (strip_html_tags_str s). intros t. unfold unquoted, slice_1_m1.
  pose proof (substring_length 1 (String.length t - 2) t). repeat case_match; auto.
Qed.

End Frame.
